(** * GG Gallery static data generator: a shallow embedding of
    [generate_gallery.py] and the properties of the tree it builds.

    Python [str] values are sequences of Unicode code points; a code point
    is a number in [N], a byte is a number below 256.  The file system is a
    snapshot: a finite tree of directory entries, each directory holding its
    entries in the order the operating system enumerates them.  Printing and
    uncaught exceptions are the two effects of the program; both are
    explicit in the monad [M]. *)

From Stdlib Require Import List NArith ZArith Lia Bool String Ascii.
From Stdlib Require Import Permutation Sorted.
From Stdlib Require Decimal.
Import ListNotations.

Local Open Scope N_scope.

Set Warnings "-register-all".

(** ** Python strings *)

Definition char := N.
Definition str := list char.

(** An ASCII literal as a Python string. *)
Fixpoint lit (s : string) : str :=
  match s with
  | EmptyString => []
  | String a r => N_of_ascii a :: lit r
  end.

Definition c_space : char := 32.
Definition c_percent : char := 37.
Definition c_dot : char := 46.
Definition c_slash : char := 47.
Definition c_backslash : char := 92.
Definition c_underscore : char := 95.

Fixpoint str_eqb (a b : str) : bool :=
  match a, b with
  | [], [] => true
  | x :: a', y :: b' => (x =? y) && str_eqb a' b'
  | _, _ => false
  end.

(** Comparison of two strings as Python's [<] does it: code point by code
    point, the shorter string first when one is a prefix of the other. *)
Fixpoint str_compare (a b : str) : comparison :=
  match a, b with
  | [], [] => Eq
  | [], _ :: _ => Lt
  | _ :: _, [] => Gt
  | x :: a', y :: b' =>
      match x ?= y with
      | Eq => str_compare a' b'
      | c => c
      end
  end.

Definition str_leb (a b : str) : bool :=
  match str_compare a b with Gt => false | _ => true end.

Definition str_le (a b : str) : Prop := str_leb a b = true.

(** [s.replace(old, new)] for a pattern [old] of one character, which is
    the only form the program uses. *)
Fixpoint replace (old : char) (new : str) (s : str) : str :=
  match s with
  | [] => []
  | c :: rest => (if c =? old then new else [c]) ++ replace old new rest
  end.

(** [s.startswith(p)]. *)
Fixpoint startswith (p s : str) : bool :=
  match p, s with
  | [], _ => true
  | _ :: _, [] => false
  | x :: p', y :: s' => (x =? y) && startswith p' s'
  end.

(** [s.endswith(c)] for a one-character suffix. *)
Definition endswith_char (c : char) (s : str) : bool :=
  match rev s with
  | [] => false
  | x :: _ => x =? c
  end.

(** [s.rfind(c)] for a one-character pattern: the highest index of [c], or
    [-1]. *)
Fixpoint rfind_from (c : char) (s : str) (i : Z) (last : Z) : Z :=
  match s with
  | [] => last
  | x :: rest => rfind_from c rest (i + 1)%Z (if x =? c then i else last)
  end.

Definition rfind (c : char) (s : str) : Z := rfind_from c s 0%Z (-1)%Z.

(** [s[i:]] and [s[:i]] for an index [i >= 0]. *)
Definition slice_from (i : Z) (s : str) : str := skipn (Z.to_nat i) s.
Definition slice_to (i : Z) (s : str) : str := firstn (Z.to_nat i) s.

(** [x or y] on strings: the empty string is false. *)
Definition py_or (x y : str) : str :=
  match x with
  | [] => y
  | _ => x
  end.

Definition ascii_lower (c : char) : char :=
  if (65 <=? c) && (c <=? 90) then c + 32 else c.

(** [str(n)] for a length. *)
Fixpoint uint_str (d : Decimal.uint) : str :=
  match d with
  | Decimal.Nil => []
  | Decimal.D0 r => 48 :: uint_str r
  | Decimal.D1 r => 49 :: uint_str r
  | Decimal.D2 r => 50 :: uint_str r
  | Decimal.D3 r => 51 :: uint_str r
  | Decimal.D4 r => 52 :: uint_str r
  | Decimal.D5 r => 53 :: uint_str r
  | Decimal.D6 r => 54 :: uint_str r
  | Decimal.D7 r => 55 :: uint_str r
  | Decimal.D8 r => 56 :: uint_str r
  | Decimal.D9 r => 57 :: uint_str r
  end.

Definition nat_str (n : nat) : str := uint_str (Nat.to_uint n).

(** ** posixpath *)

Definition sep : char := c_slash.

(** [os.path.basename]: what follows the last separator. *)
Definition basename (p : str) : str :=
  slice_from (rfind sep p + 1) p.

(** [os.path.join(a, b)]. *)
Definition join (a b : str) : str :=
  if startswith [sep] b then b
  else match a with
       | [] => a ++ b
       | _ => if endswith_char sep a then a ++ b else a ++ [sep] ++ b
       end.

(** The loop of [genericpath._splitext] that skips the leading dots of the
    file name: is there a character other than the dot in
    [p[filenameIndex:dotIndex]]? *)
Fixpoint has_non_dot (s : str) : bool :=
  match s with
  | [] => false
  | c :: rest => negb (c =? c_dot) || has_non_dot rest
  end.

(** [os.path.splitext]. *)
Definition splitext (p : str) : str * str :=
  let sepIndex := rfind sep p in
  let dotIndex := rfind c_dot p in
  if (sepIndex <? dotIndex)%Z
  then
    let filenameIndex := (sepIndex + 1)%Z in
    if has_non_dot (slice_to (dotIndex - filenameIndex) (slice_from filenameIndex p))
    then (slice_to dotIndex p, slice_from dotIndex p)
    else (p, [])
  else (p, []).

(** ** urllib.parse.quote *)

(** UTF-8 of one code point, as [str.encode('utf-8', 'strict')] gives it:
    the surrogates [U+D800..U+DFFF] cannot be encoded, and nothing above
    [U+10FFFF] is a code point. *)
Definition utf8_encode_char (c : char) : option (list N) :=
  if c <? 128 then Some [c]
  else if c <? 2048 then Some [192 + c / 64; 128 + c mod 64]
  else if c <? 65536 then
    if (55296 <=? c) && (c <=? 57343) then None
    else Some [224 + c / 4096; 128 + (c / 64) mod 64; 128 + c mod 64]
  else if c <? 1114112 then
    Some [240 + c / 262144; 128 + (c / 4096) mod 64;
          128 + (c / 64) mod 64; 128 + c mod 64]
  else None.

Fixpoint utf8_encode (s : str) : option (list N) :=
  match s with
  | [] => Some []
  | c :: rest =>
      match utf8_encode_char c, utf8_encode rest with
      | Some bs, Some bs' => Some (bs ++ bs')
      | _, _ => None
      end
  end.

(** [_ALWAYS_SAFE]: the unreserved characters, never quoted. *)
Definition always_safe (b : N) : bool :=
  ((65 <=? b) && (b <=? 90)) || ((97 <=? b) && (b <=? 122))
  || ((48 <=? b) && (b <=? 57))
  || (b =? 95) || (b =? 46) || (b =? 45) || (b =? 126).

Definition hex_digit (n : N) : char :=
  if n <? 10 then 48 + n else 55 + n.

(** One byte through the quoter: itself when safe, ['%XX'] otherwise. *)
Definition quoter (safe : str) (b : N) : str :=
  if always_safe b || existsb (N.eqb b) safe then [b]
  else [c_percent; hex_digit (b / 16); hex_digit (b mod 16)].

Definition quote_from_bytes (bs : list N) (safe : str) : str :=
  flat_map (quoter (filter (fun c => c <? 128) safe)) bs.

(** [urllib.parse.quote(string, safe)]: [None] stands for the
    [UnicodeEncodeError] of the strict encoder. *)
Definition quote (s : str) (safe : str) : option str :=
  match utf8_encode s with
  | Some bs => Some (quote_from_bytes bs safe)
  | None => None
  end.

(** ** Percent-decoding

    The program only encodes.  The decoder below is the reader's side of
    the round trip the specification speaks of: every ['%XX'] escape becomes
    the byte it denotes, every other character (the separator ['/']
    included) is taken literally, and the bytes are read back as UTF-8. *)

Definition hex_value (c : N) : option N :=
  if (48 <=? c) && (c <=? 57) then Some (c - 48)
  else if (65 <=? c) && (c <=? 70) then Some (c - 55)
  else if (97 <=? c) && (c <=? 102) then Some (c - 87)
  else None.

Fixpoint percent_decode (bs : list N) : list N :=
  match bs with
  | [] => []
  | b :: r =>
      if b =? c_percent then
        match r with
        | h :: l :: r2 =>
            match hex_value h, hex_value l with
            | Some x, Some y => (16 * x + y) :: percent_decode r2
            | _, _ => b :: percent_decode r
            end
        | _ => b :: percent_decode r
        end
      else b :: percent_decode r
  end.

Definition is_cont (b : N) : bool := (128 <=? b) && (b <? 192).

Definition is_surrogate (c : N) : bool := (55296 <=? c) && (c <=? 57343).

Fixpoint utf8_decode (bs : list N) : option str :=
  match bs with
  | [] => Some []
  | b1 :: r1 =>
      if b1 <? 128 then option_map (cons b1) (utf8_decode r1)
      else if b1 <? 192 then None
      else if b1 <? 224 then
        match r1 with
        | b2 :: r2 =>
            let c := (b1 - 192) * 64 + (b2 - 128) in
            if is_cont b2 && (128 <=? c)
            then option_map (cons c) (utf8_decode r2)
            else None
        | _ => None
        end
      else if b1 <? 240 then
        match r1 with
        | b2 :: b3 :: r3 =>
            let c := (b1 - 224) * 4096 + (b2 - 128) * 64 + (b3 - 128) in
            if is_cont b2 && is_cont b3 && (2048 <=? c) && negb (is_surrogate c)
            then option_map (cons c) (utf8_decode r3)
            else None
        | _ => None
        end
      else if b1 <? 248 then
        match r1 with
        | b2 :: b3 :: b4 :: r4 =>
            let c := (b1 - 240) * 262144 + (b2 - 128) * 4096
                     + (b3 - 128) * 64 + (b4 - 128) in
            if is_cont b2 && is_cont b3 && is_cont b4
               && (65536 <=? c) && (c <? 1114112)
            then option_map (cons c) (utf8_decode r4)
            else None
        | _ => None
        end
      else None
  end.

Definition unquote (s : str) : option str :=
  match utf8_encode s with
  | Some bs => utf8_decode (percent_decode bs)
  | None => None
  end.

(** ** Values

    The tree is made of Python dicts, lists and strings, the values
    [json.dumps] serialises.  A dict keeps its keys in insertion order. *)

Inductive value : Type :=
| VStr (s : str)
| VList (items : list value)
| VDict (fields : list (str * value)).

Fixpoint assoc {A : Type} (k : str) (l : list (str * A)) : option A :=
  match l with
  | [] => None
  | (k', v) :: rest => if str_eqb k k' then Some v else assoc k rest
  end.

(** [d[key]], [None] standing for a key that is absent (or a value that is
    no dict). *)
Definition getitem (v : value) (key : str) : option value :=
  match v with
  | VDict fields => assoc key fields
  | _ => None
  end.

(** [node["children"].append(child)]. *)
Definition children_append (node child : value) : value :=
  match node with
  | VDict fields =>
      VDict (map (fun kv =>
                    if str_eqb (fst kv) (lit "children")
                    then (fst kv,
                          match snd kv with
                          | VList l => VList (l ++ [child])
                          | v => v
                          end)
                    else kv) fields)
  | _ => node
  end.

(** A node of the tree lies in it: the tree itself, or a node in one of
    its children. *)
Inductive InTree (n : value) : value -> Prop :=
| InTree_root : InTree n n
| InTree_child : forall t cs c,
    getitem t (lit "children") = Some (VList cs) ->
    In c cs -> InTree n c -> InTree n t.

(** ** Effects *)

Inductive exn : Type :=
| PermissionError
| NotADirectoryError
| UnicodeEncodeError
| KeyError.

Inductive event : Type :=
| Print (line : str)
| WriteFile (name : str) (content : str).

(** What running a piece of the program gives: the events it caused, in
    order, and either the value it returned or the exception that ended
    it. *)
Definition M (A : Type) : Type := list event * (exn + A).

Definition ret {A : Type} (a : A) : M A := ([], inr a).

Definition raise {A : Type} (e : exn) : M A := ([], inl e).

Definition bind {A B : Type} (m : M A) (k : A -> M B) : M B :=
  match m with
  | (out, inl e) => (out, inl e)
  | (out, inr a) => let (out', r) := k a in (out ++ out', r)
  end.

(** [print(line)].  Standard output is taken to accept every string. *)
Definition print (line : str) : M unit := ([Print line], inr tt).

Definition write_file (name content : str) : M unit :=
  ([WriteFile name content], inr tt).

Notation "x <- m ;; k" := (bind m (fun x => k))
  (at level 61, m at next level, right associativity).
Notation "m ;; k" := (bind m (fun _ => k))
  (at level 61, right associativity).

(** [for item in items: body], the loop variable [s] being the state the
    body updates; [continue] is [ret s]. *)
Fixpoint for_each {A S : Type} (items : list A) (body : A -> S -> M S)
  (s : S) : M S :=
  match items with
  | [] => ret s
  | x :: rest => s' <- body x s ;; for_each rest body s'
  end.

(** The lines a run printed. *)
Definition printed {A : Type} (m : M A) : list str :=
  flat_map (fun ev => match ev with Print l => [l] | _ => [] end) (fst m).

(** ** The file system, as the scan sees it *)

Inductive entry : Type :=
| Missing                              (* nothing there: a dangling link *)
| RegFile                              (* a regular file *)
| Special                              (* exists; no directory, no file *)
| DirDenied                            (* a directory that cannot be listed *)
| Dir (entries : list (str * entry)).  (* a directory, in listing order *)

Definition path_exists (e : entry) : bool :=
  match e with Missing => false | _ => true end.

Definition isdir (e : entry) : bool :=
  match e with Dir _ | DirDenied => true | _ => false end.

Definition isfile (e : entry) : bool :=
  match e with RegFile => true | _ => false end.

(** [os.listdir]: the names, as the operating system enumerates them. *)
Definition listdir (e : entry) : exn + list str :=
  match e with
  | Dir entries => inr (map fst entries)
  | DirDenied => inl PermissionError
  | _ => inl NotADirectoryError
  end.

(** What the name [item] denotes in a directory. *)
Definition resolve (item : str) (entries : list (str * entry)) : entry :=
  match assoc item entries with
  | Some e => e
  | None => Missing
  end.

(** [sorted(names)]. *)
Fixpoint insert_sorted (x : str) (l : list str) : list str :=
  match l with
  | [] => [x]
  | y :: rest => if str_leb x y then x :: l else y :: insert_sorted x rest
  end.

Definition sorted (l : list str) : list str := fold_right insert_sorted [] l.

(** ** The program *)

Definition IMAGE_ROOT : str := lit "img".
Definition OUTPUT_FILE : str := lit "gallery_data.js".

Definition IMG_EXTENSIONS : list str :=
  [lit ".jpg"; lit ".jpeg"; lit ".png"; lit ".gif"; lit ".webp"; lit ".bmp"].

Definition VID_EXTENSIONS : list str :=
  [lit ".mp4"; lit ".mov"; lit ".webm"; lit ".ogg"; lit ".mkv"].

(** [x in s] for a set of strings. *)
Definition mem (x : str) (s : list str) : bool := existsb (str_eqb x) s.

(** Two functions of the Python library are taken as they are.
    [unicode_lower before c after] is what [str.lower] gives for a
    non-ASCII character [c] standing between [before] and [after] (the
    Unicode case tables; the context matters for the Greek final sigma
    only).  [json_dumps] is [json.dumps(_, indent=4)]. *)
Class PythonLibrary : Type := {
  unicode_lower : str -> char -> str -> str;
  json_dumps : value -> str
}.

Definition is_byte (b : N) : Prop := b < 256.

Ltac cases_ltb :=
  repeat match goal with
    | |- context [?a <? ?b] => destruct (N.ltb_spec a b); try lia
    | |- context [?a <=? ?b] => destruct (N.leb_spec a b); try lia
    end.

Section Program.

Context {lib : PythonLibrary}.

(** [s.lower()]. *)
Fixpoint lower_from (before s : str) : str :=
  match s with
  | [] => []
  | c :: rest =>
      (if c <? 128 then [ascii_lower c] else unicode_lower before c rest)
      ++ lower_from (before ++ [c]) rest
  end.

Definition lower (s : str) : str := lower_from [] s.

Definition generate_safe_id (path : str) : str :=
  lower (replace c_dot [] (replace c_space [c_underscore]
                             (replace sep [c_underscore] path))).

(** The dict a folder starts as. *)
Definition folder_node (path : str) : value :=
  let folder_name := py_or (basename path) (lit "Home") in
  VDict [(lit "id", VStr (generate_safe_id path));
         (lit "name", VStr folder_name);
         (lit "type", VStr (lit "folder"));
         (lit "children", VList [])].

(** The dict of a media file. *)
Definition media_node (item ext web_path : str) : value :=
  VDict [(lit "id",
          VStr (replace c_space [c_underscore]
                  (replace c_dot [c_underscore] item)));
         (lit "name", VStr item);
         (lit "type",
          VStr (if mem ext VID_EXTENSIONS then lit "video" else lit "image"));
         (lit "src", VStr web_path);
         (lit "thumbnail", VStr web_path);
         (lit "date", VStr [])].

(** The body of the loop of [scan_directory] for one [item] of the
    directory [path]: [child] is what [item_path] denotes, [subscan] is
    the recursive call [scan_directory(item_path)]. *)
Definition scan_item (path : str) (child : entry) (subscan : M value)
  (item : str) (node : value) : M value :=
  if startswith (lit ".") item then ret node
  else
    let item_path := join path item in
    if isdir child then
      sub <- subscan ;;
      ret (children_append node sub)
    else if isfile child then
      let ext := lower (snd (splitext item)) in
      if mem ext IMG_EXTENSIONS || mem ext VID_EXTENSIONS then
        let normalized_path := replace c_backslash [c_slash] item_path in
        match quote normalized_path (lit "/") with
        | None => raise UnicodeEncodeError
        | Some web_path =>
            ret (children_append node (media_node item ext web_path))
        end
      else ret node
    else ret node.

Definition warn_not_found (path : str) : M unit :=
  print (lit "Warning: Path '" ++ path ++ lit "' not found.").

Definition warn_denied (path : str) : M unit :=
  print (lit "Warning: Permission denied for '" ++ path ++ lit "'.").

(** [scan_directory(path)], [e] being what [path] denotes in the
    snapshot.  The recursive calls of the loop are taken from [subscans],
    the scans of the entries of [e] under their joined paths, so that the
    recursion follows the snapshot. *)
Fixpoint scan_directory (path : str) (e : entry) {struct e} : M value :=
  let node := folder_node path in
  let subscans :=
    match e with
    | Dir entries =>
        map (fun ne => (fst ne, scan_directory (join path (fst ne)) (snd ne)))
            entries
    | _ => []
    end in
  let children := match e with Dir entries => entries | _ => [] end in
  if negb (path_exists e) then
    warn_not_found path ;;
    ret node
  else
    match listdir e with
    | inl PermissionError =>
        warn_denied path ;;
        ret node
    | inl err => raise err
    | inr names =>
        let items := sorted names in
        for_each items
          (fun item node =>
             scan_item path (resolve item children)
               (match assoc item subscans with
                | Some m => m
                | None => warn_not_found (join path item) ;;
                          ret (folder_node (join path item))
                end)
               item node)
          node
    end.

(** [generate()], [root] being what [IMAGE_ROOT] denotes and
    [write_error] the message of the [IOError] of the write, if it
    fails.  [root_node["children"]] is the list the scan has filled; a
    node without it would be a [KeyError]. *)
Definition generate (root : entry) (write_error : option str) : M unit :=
  print (lit "--- GG Gallery Generator ---") ;;
  print (lit "Scanning directory: '" ++ IMAGE_ROOT ++ lit "'...") ;;
  if negb (path_exists root) then
    print (lit "CRITICAL ERROR: Directory '" ++ IMAGE_ROOT
           ++ lit "' does not exist.")
  else
    root_node <- scan_directory IMAGE_ROOT root ;;
    match getitem root_node (lit "children") with
    | Some (VList children) =>
        let payload :=
          VDict [(lit "id", VStr (lit "root"));
                 (lit "name", VStr (lit "Home"));
                 (lit "type", VStr (lit "folder"));
                 (lit "children", VList children)] in
        let js_content :=
          lit "const generatedFileSystem = " ++ json_dumps payload
          ++ lit ";" in
        match write_error with
        | None =>
            write_file OUTPUT_FILE js_content ;;
            print (lit "Success! Data structure saved to '" ++ OUTPUT_FILE
                   ++ lit "'.") ;;
            print (lit "Total items in root: "
                   ++ nat_str (List.length children))
        | Some e => print (lit "Error writing file: " ++ e)
        end
    | _ => raise KeyError
    end.

(** ** Notions the properties are stated with *)

(** The dict of the folder [path] once [cs] have been appended. *)
Definition folder_with (path : str) (cs : list value) : value :=
  VDict [(lit "id", VStr (generate_safe_id path));
         (lit "name", VStr (py_or (basename path) (lit "Home")));
         (lit "type", VStr (lit "folder"));
         (lit "children", VList cs)].

Definition children_of (v : value) : list value :=
  match getitem v (lit "children") with
  | Some (VList cs) => cs
  | _ => []
  end.

Definition hidden (item : str) : bool := startswith (lit ".") item.

(** The extension the scan classifies [item] by. *)
Definition extension (item : str) : str := lower (snd (splitext item)).

Definition is_media_ext (ext : str) : bool :=
  mem ext IMG_EXTENSIONS || mem ext VID_EXTENSIONS.

(** What one item of the loop adds to the children, if anything. *)
Definition item_child (path : str) (child : entry) (subscan : M value)
  (item : str) : M (option value) :=
  if hidden item then ret None
  else if isdir child then
    sub <- subscan ;;
    ret (Some sub)
  else if isfile child then
    if is_media_ext (extension item) then
      match quote (replace c_backslash [c_slash] (join path item)) (lit "/") with
      | None => raise UnicodeEncodeError
      | Some web_path => ret (Some (media_node item (extension item) web_path))
      end
    else ret None
  else ret None.

Definition opt_list {A : Type} (o : option A) : list A :=
  match o with
  | Some a => [a]
  | None => []
  end.

(** Running the items one after the other and gathering what they add. *)
Fixpoint collect {A : Type} (ms : list (M (option A))) : M (list A) :=
  match ms with
  | [] => ret []
  | m :: rest =>
      r <- m ;;
      cs <- collect rest ;;
      ret (opt_list r ++ cs)
  end.

(** The paths a scan started at [root] is called on: [root] itself, and
    every directory (not hidden) among the entries of a directory it has
    listed, under the joined path. *)
Inductive visits (root : str) (e : entry) : str -> entry -> Prop :=
| visits_root : visits root e root e
| visits_sub : forall p entries item,
    visits root e p (Dir entries) ->
    In item (map fst entries) ->
    hidden item = false ->
    isdir (resolve item entries) = true ->
    visits root e (join p item) (resolve item entries).

(** File names as a POSIX file system has them: not empty, and without
    the separator. *)
Definition valid_name (name : str) : bool :=
  negb (str_eqb name []) && negb (existsb (N.eqb sep) name).

Fixpoint names_valid (e : entry) : bool :=
  match e with
  | Dir entries =>
      forallb (fun ne => valid_name (fst ne) && names_valid (snd ne)) entries
  | _ => true
  end.

(** The body of the loop of [scan_directory path] on the entries
    [entries], for one item. *)
Definition loop_body (path : str) (entries : list (str * entry))
  (item : str) (node : value) : M value :=
  scan_item path (resolve item entries)
    (scan_directory (join path item) (resolve item entries)) item node.

Definition has_name (c : value) (name : str) : Prop :=
  getitem c (lit "name") = Some (VStr name).

(** The warning the scan prints when it is called on [p] and finds [e]
    there. *)
Definition anomaly_warning (p : str) (e : entry) (ev : event) : Prop :=
  (e = Missing
   /\ ev = Print (lit "Warning: Path '" ++ p ++ lit "' not found."))
  \/ (e = DirDenied
      /\ ev = Print (lit "Warning: Permission denied for '" ++ p
                     ++ lit "'.")).

(** What the loop prints for one item: what the scan of the item
    prints, if the item is a directory that is not hidden. *)
Definition item_events (path : str) (entries : list (str * entry))
  (item : str) : list event :=
  if hidden item then []
  else if isdir (resolve item entries)
       then fst (scan_directory (join path item) (resolve item entries))
       else [].

(** No name twice in a directory, as in a file system. *)
Fixpoint nodupb (l : list str) : bool :=
  match l with
  | [] => true
  | x :: rest => negb (mem x rest) && nodupb rest
  end.

Fixpoint unique_names (e : entry) : bool :=
  match e with
  | Dir entries =>
      nodupb (map fst entries)
      && forallb (fun ne => unique_names (snd ne)) entries
  | _ => true
  end.

(** The same snapshot, its directories enumerated in another order:
    the same names denoting the same things, at every level. *)
Inductive reordering : entry -> entry -> Prop :=
| reorder_missing : reordering Missing Missing
| reorder_file : reordering RegFile RegFile
| reorder_special : reordering Special Special
| reorder_denied : reordering DirDenied DirDenied
| reorder_dir : forall l1 l1' l2,
    Forall2 (fun a b => fst a = fst b /\ reordering (snd a) (snd b))
      l1 l1' ->
    Permutation l1' l2 ->
    reordering (Dir l1) (Dir l2).

Definition is_folder (n : value) : Prop :=
  getitem n (lit "type") = Some (VStr (lit "folder")).

Definition is_media (n : value) : Prop :=
  getitem n (lit "type") = Some (VStr (lit "image"))
  \/ getitem n (lit "type") = Some (VStr (lit "video")).

(** The folder id in the words of the specification: separators and
    spaces become underscores, dots go, and the result is lowercased. *)
Definition folder_id_spec (path : str) : str :=
  lower (flat_map (fun c => if c =? sep then [c_underscore]
                            else if c =? c_space then [c_underscore]
                            else if c =? c_dot then []
                            else [c]) path).

(** The media id in the words of the specification: dots and spaces
    become underscores, every other character stays as it is. *)
Definition media_id_spec (item : str) : str :=
  map (fun c => if (c =? c_dot) || (c =? c_space) then c_underscore else c)
      item.

Definition scan_child (path : str) (entries : list (str * entry))
  (item : str) : M (option value) :=
  item_child path (resolve item entries)
    (scan_directory (join path item) (resolve item entries)) item.

(** [n] is the node of a media file the scan met. *)
Definition is_media_of (root : str) (e : entry) (n : value) : Prop :=
  exists p entries item web_path,
    visits root e p (Dir entries)
    /\ In item (map fst entries)
    /\ hidden item = false
    /\ resolve item entries = RegFile
    /\ is_media_ext (extension item) = true
    /\ quote (replace c_backslash [c_slash] (join p item)) (lit "/")
       = Some web_path
    /\ n = media_node item (extension item) web_path.

(** [n] is the node of a directory the scan entered below the root. *)
Definition is_subfolder_of (root : str) (e : entry) (n : value) : Prop :=
  exists p entries item out,
    visits root e p (Dir entries)
    /\ In item (map fst entries)
    /\ hidden item = false
    /\ isdir (resolve item entries) = true
    /\ scan_directory (join p item) (resolve item entries) = (out, inr n).




(** ** Notions for the further properties *)

(** The files a run wrote, with their contents, in order. *)
Definition written {A : Type} (m : M A) : list (str * str) :=
  flat_map (fun ev => match ev with
                      | WriteFile name content => [(name, content)]
                      | _ => []
                      end) (fst m).

(** The root structure [generate] wraps the children of the scan in. *)
Definition payload (children : list value) : value :=
  VDict [(lit "id", VStr (lit "root"));
         (lit "name", VStr (lit "Home"));
         (lit "type", VStr (lit "folder"));
         (lit "children", VList children)].

(** The text [generate] writes for a payload. *)
Definition js_content (p : value) : str :=
  lit "const generatedFileSystem = " ++ json_dumps p ++ lit ";".


(** Does the loop of the directory [entries] add a node for [item]? *)
Definition kept (entries : list (str * entry)) (item : str) : bool :=
  negb (hidden item)
  && (isdir (resolve item entries)
      || (isfile (resolve item entries) && is_media_ext (extension item))).

(** The characters a quoted path is made of: the unreserved ones, the
    separator, and the percent sign of the escapes. *)
Definition web_safe (c : char) : bool :=
  always_safe c || (c =? c_slash) || (c =? c_percent).

Definition ascii (s : str) : bool := forallb (fun c => c <? 128) s.

Definition is_upper (c : char) : bool := (65 <=? c) && (c <=? 90).

(** The characters a safe id of an ASCII path is made of. *)
Definition id_char (c : char) : bool :=
  (c <? 128) && negb (c =? sep) && negb (c =? c_space) && negb (c =? c_dot)
  && negb (is_upper c).

End Program.

(** ** A snapshot to run the program on

    The library with no case tables beyond ASCII, which is all the names
    of the examples need. *)

Definition ascii_library : PythonLibrary :=
  {| unicode_lower := fun _ c _ => [c];
     json_dumps := fun _ => lit "{}" |}.

Definition example_album : list (str * entry) :=
  [(lit "beach.JPG", RegFile); (lit ".DS_Store", RegFile)].

Definition example_entries : list (str * entry) :=
  [(lit "notes.txt", RegFile);
   (lit "Vacation 2023", Dir example_album);
   (lit "Clips", Dir [(lit "video.mp4", RegFile)]);
   (lit "locked", DirDenied)].

Definition example_fs : entry := Dir example_entries.

(** A directory that holds one hidden file with an image extension. *)
Definition hidden_photo : list (str * entry) :=
  [(lit ".photo.jpg", RegFile)].

(** What the scan of [example_fs] under ['img'] prints and returns. *)
Definition example_out : list event :=
  Eval vm_compute in
    fst (scan_directory (lib := ascii_library) (lit "img") example_fs).

Definition example_tree : value :=
  Eval vm_compute in
    match snd (scan_directory (lib := ascii_library) (lit "img") example_fs) with
    | inr t => t
    | inl _ => VStr []
    end.

(** The node of the folder ['Vacation 2023'] and, in it, the node of
    ['beach.JPG']. *)
Definition example_folder : value :=
  Eval vm_compute in nth 1 (children_of example_tree) (VStr []).

Definition example_media : value :=
  Eval vm_compute in nth 0 (children_of example_folder) (VStr []).

(** A snapshot and the same snapshot enumerated in another order. *)
Definition listing_a : entry :=
  Dir [(lit "b", Dir [(lit "y.png", RegFile); (lit "x.png", RegFile)]);
       (lit "a.png", RegFile)].

Definition listing_b : entry :=
  Dir [(lit "a.png", RegFile);
       (lit "b", Dir [(lit "x.png", RegFile); (lit "y.png", RegFile)])].



(** Tactics for the examples: a run is evaluated, a node is found in
    the tree by its position. *)
Ltac by_running := vm_compute; reflexivity.

Ltac folder_in_tree :=
  eapply InTree_child;
  [reflexivity | right; left; reflexivity | apply InTree_root].

Ltac media_in_folder :=
  eapply InTree_child; [reflexivity | left; reflexivity | apply InTree_root].

Ltac media_in_tree :=
  eapply InTree_child;
  [reflexivity | right; left; reflexivity | media_in_folder].

Section Properties.

Context {lib : PythonLibrary}.

(** ** Strings *)

Lemma str_eqb_eq (a b : str) : str_eqb a b = true <-> a = b.
Proof.
  revert b; induction a as [|x a IH]; intros [|y b]; simpl;
    try (split; [discriminate | discriminate || reflexivity]);
    try (split; reflexivity).
  rewrite andb_true_iff, N.eqb_eq, IH.
  split; [intros [-> ->]; reflexivity | intros H; inversion H; auto].
Qed.

Lemma str_eqb_refl (a : str) : str_eqb a a = true.
Proof. apply str_eqb_eq; reflexivity. Qed.

Lemma assoc_In {A : Type} (k : str) (l : list (str * A)) (v : A) :
  assoc k l = Some v -> In (k, v) l.
Proof.
  induction l as [|[k' v'] l IH]; simpl; [discriminate|].
  destruct (str_eqb k k') eqn:E.
  - apply str_eqb_eq in E; subst k'. intros H; inversion H; auto.
  - auto.
Qed.

Lemma assoc_None {A : Type} (k : str) (l : list (str * A)) :
  assoc k l = None <-> ~ In k (map fst l).
Proof.
  induction l as [|[k' v'] l IH]; simpl; [tauto|].
  destruct (str_eqb k k') eqn:E.
  - apply str_eqb_eq in E; subst k'. split; [discriminate | intros H; elim H; auto].
  - rewrite IH. split; [intros H [H1|H1]; auto | tauto].
    subst k'. rewrite str_eqb_refl in E; discriminate.
Qed.

Lemma assoc_map {A B : Type} (f : str -> A -> B) (k : str)
  (l : list (str * A)) :
  assoc k (map (fun ne => (fst ne, f (fst ne) (snd ne))) l)
  = option_map (f k) (assoc k l).
Proof.
  induction l as [|[k' v'] l IH]; simpl; [reflexivity|].
  destruct (str_eqb k k') eqn:E; [|exact IH].
  apply str_eqb_eq in E; subst k'; reflexivity.
Qed.

(** ** The monad *)

Lemma bind_ret_l {A B : Type} (a : A) (k : A -> M B) : bind (ret a) k = k a.
Proof. unfold bind, ret; destruct (k a); reflexivity. Qed.

Lemma bind_ret_r {A : Type} (m : M A) : bind m ret = m.
Proof.
  destruct m as [out [e|a]]; simpl; [reflexivity|].
  rewrite app_nil_r; reflexivity.
Qed.

Lemma bind_assoc {A B C : Type} (m : M A) (k : A -> M B) (h : B -> M C) :
  bind (bind m k) h = bind m (fun a => bind (k a) h).
Proof.
  destruct m as [out [e|a]]; simpl; [reflexivity|].
  destruct (k a) as [out1 [e1|b]]; simpl; [reflexivity|].
  destruct (h b) as [out2 r]; rewrite app_assoc; reflexivity.
Qed.

Lemma bind_ext {A B : Type} (m : M A) (k1 k2 : A -> M B) :
  (forall a, k1 a = k2 a) -> bind m k1 = bind m k2.
Proof.
  intros H; destruct m as [out [e|a]]; simpl; [reflexivity|].
  rewrite H; reflexivity.
Qed.

(** A sequence returns only if both parts do. *)
Lemma bind_inr {A B : Type} (m : M A) (k : A -> M B) (out : list event)
  (b : B) :
  bind m k = (out, inr b) ->
  exists o1 a o2, m = (o1, inr a) /\ k a = (o2, inr b) /\ out = o1 ++ o2.
Proof.
  destruct m as [o1 [e|a]]; simpl; [discriminate|].
  destruct (k a) as [o2 r] eqn:E. intros H; inversion H; subst.
  exists o1, a, o2; auto.
Qed.

(** ** The loop *)

Lemma children_append_folder (path : str) (cs : list value) (c : value) :
  children_append (folder_with path cs) c = folder_with path (cs ++ [c]).
Proof. reflexivity. Qed.

Lemma folder_node_with (path : str) : folder_node path = folder_with path [].
Proof. reflexivity. Qed.

Lemma scan_item_child (path p : str) (child : entry) (subscan : M value)
  (item : str) (cs : list value) :
  scan_item path child subscan item (folder_with p cs)
  = (r <- item_child path child subscan item ;;
     ret (folder_with p (cs ++ opt_list r))).
Proof.
  unfold scan_item, item_child, hidden, is_media_ext, extension.
  destruct (startswith (lit ".") item).
  { rewrite bind_ret_l; simpl; rewrite app_nil_r; reflexivity. }
  destruct (isdir child).
  { rewrite bind_assoc. apply bind_ext; intros sub.
    rewrite bind_ret_l, children_append_folder; reflexivity. }
  destruct (isfile child);
    [|rewrite bind_ret_l; simpl; rewrite app_nil_r; reflexivity].
  destruct (_ || _);
    [|rewrite bind_ret_l; simpl; rewrite app_nil_r; reflexivity].
  destruct (quote _ _); [|reflexivity].
  rewrite bind_ret_l, children_append_folder; reflexivity.
Qed.

Lemma for_each_collect (p : str) (f : str -> M (option value))
  (body : str -> value -> M value) (items : list str) :
  (forall item cs,
      body item (folder_with p cs)
      = (r <- f item ;; ret (folder_with p (cs ++ opt_list r)))) ->
  forall cs,
    for_each items body (folder_with p cs)
    = (new <- collect (map f items) ;; ret (folder_with p (cs ++ new))).
Proof.
  intros Hbody. induction items as [|item items IH]; intros cs;
    cbn [for_each collect map].
  - rewrite bind_ret_l, app_nil_r; reflexivity.
  - rewrite Hbody, !bind_assoc. apply bind_ext; intros r.
    rewrite bind_ret_l, IH, !bind_assoc. apply bind_ext; intros new.
    rewrite !bind_ret_l, app_assoc; reflexivity.
Qed.

Lemma for_each_ext {A S : Type} (items : list A) (b1 b2 : A -> S -> M S) :
  (forall x s, b1 x s = b2 x s) ->
  forall s, for_each items b1 s = for_each items b2 s.
Proof.
  intros H. induction items as [|x items IH]; intros s; simpl;
    [reflexivity|].
  rewrite H. apply bind_ext; exact IH.
Qed.

(** The recursion resolved: the table of the scans of the entries holds,
    under each item, the scan of what the item denotes. *)
Lemma scan_directory_Dir (path : str) (entries : list (str * entry)) :
  scan_directory path (Dir entries)
  = for_each (sorted (map fst entries))
      (fun item node =>
         scan_item path (resolve item entries)
           (scan_directory (join path item) (resolve item entries))
           item node)
      (folder_node path).
Proof.
  cbn [scan_directory path_exists negb listdir].
  apply for_each_ext; intros item node. f_equal.
  rewrite (assoc_map (fun k e => scan_directory (join path k) e)).
  unfold resolve. destruct (assoc item entries); reflexivity.
Qed.

(** Induction on the snapshot: a directory has the property if whatever
    its names denote has it. *)
Lemma entry_induction (P : entry -> Prop) :
  P Missing -> P RegFile -> P Special -> P DirDenied ->
  (forall entries, (forall item, P (resolve item entries)) -> P (Dir entries)) ->
  forall e, P e.
Proof.
  intros HM HR HS HD Hdir.
  fix IH 1.
  intros [ | | | | entries]; [exact HM | exact HR | exact HS | exact HD | ].
  apply Hdir. intros item. unfold resolve.
  induction entries as [|[k e'] entries IHl]; simpl; [exact HM|].
  destruct (str_eqb item k); [apply IH | apply IHl].
Qed.

(** The scan of a directory that can be listed: the children its sorted
    items add, in that order. *)
Lemma scan_directory_children (path : str) (entries : list (str * entry)) :
  scan_directory path (Dir entries)
  = (cs <- collect (map (scan_child path entries)
                      (sorted (map fst entries))) ;;
     ret (folder_with path cs)).
Proof.
  rewrite scan_directory_Dir, folder_node_with.
  rewrite (for_each_collect path (scan_child path entries)); [reflexivity|].
  intros item cs. apply scan_item_child.
Qed.

Lemma collect_inr {A : Type} (ms : list (M (option A))) (out : list event)
  (cs : list A) :
  collect ms = (out, inr cs) ->
  exists rs,
    Forall2 (fun m r => snd m = inr r) ms rs
    /\ cs = flat_map opt_list rs
    /\ out = flat_map fst ms.
Proof.
  revert out cs. induction ms as [|m ms IH]; intros out cs; cbn [collect].
  - intros H; inversion H; subst. exists []; repeat split; constructor.
  - intros H. apply bind_inr in H as (o1 & r & o2 & Hm & H & ->).
    apply bind_inr in H as (o3 & cs' & o4 & Hc & H & ->).
    inversion H; subst. apply IH in Hc as (rs & HF & -> & ->).
    exists (r :: rs). repeat split.
    + constructor; [reflexivity | exact HF].
    + simpl. rewrite app_nil_r; reflexivity.
Qed.

Lemma scan_shape (path : str) (e : entry) (out : list event) (t : value) :
  scan_directory path e = (out, inr t) ->
  exists cs, t = folder_with path cs.
Proof.
  destruct e as [ | | | | entries].
  1-4: cbn; intros H; inversion H; subst; exists []; reflexivity.
  rewrite scan_directory_children. intros H.
  apply bind_inr in H as (o1 & cs & o2 & _ & H & _).
  inversion H; subst. exists cs; reflexivity.
Qed.

(** ** Sorting *)

Lemma insert_sorted_perm (x : str) (l : list str) :
  Permutation (insert_sorted x l) (x :: l).
Proof.
  induction l as [|y l IH]; simpl; [reflexivity|].
  destruct (str_leb x y); [reflexivity|].
  rewrite IH. apply perm_swap.
Qed.

Lemma sorted_perm (l : list str) : Permutation (sorted l) l.
Proof.
  induction l as [|x l IH]; simpl; [reflexivity|].
  rewrite insert_sorted_perm, IH; reflexivity.
Qed.

Lemma sorted_In (x : str) (l : list str) : In x (sorted l) <-> In x l.
Proof.
  split; apply Permutation_in;
    [apply sorted_perm | apply Permutation_sym, sorted_perm].
Qed.

(** ** Where the nodes of the tree come from *)

Lemma visits_trans (r p1 p2 : str) (e e1 e2 : entry) :
  visits r e p1 e1 -> visits p1 e1 p2 e2 -> visits r e p2 e2.
Proof.
  intros H1 H2. induction H2; [exact H1|].
  apply visits_sub; auto.
Qed.

Lemma isfile_RegFile (e : entry) : isfile e = true -> e = RegFile.
Proof. destruct e; simpl; congruence. Qed.

(** What an item that adds a child is. *)
Lemma scan_child_Some (path : str) (entries : list (str * entry))
  (item : str) (out : list event) (c : value) :
  scan_child path entries item = (out, inr (Some c)) ->
  hidden item = false
  /\ ((isdir (resolve item entries) = true
       /\ scan_directory (join path item) (resolve item entries)
          = (out, inr c))
      \/ (resolve item entries = RegFile
          /\ is_media_ext (extension item) = true
          /\ exists web_path,
              quote (replace c_backslash [c_slash] (join path item)) (lit "/")
              = Some web_path
              /\ c = media_node item (extension item) web_path)).
Proof.
  unfold scan_child, item_child. intros H.
  destruct (hidden item); [discriminate|]. split; [reflexivity|].
  destruct (isdir (resolve item entries)) eqn:Ed.
  - left. split; [reflexivity|].
    apply bind_inr in H as (o1 & a & o2 & Hs & Hr & ->).
    inversion Hr; subst. rewrite app_nil_r. exact Hs.
  - right. destruct (isfile (resolve item entries)) eqn:Ef; [|discriminate].
    apply isfile_RegFile in Ef. split; [exact Ef|].
    destruct (is_media_ext (extension item)); [|discriminate].
    split; [reflexivity|].
    destruct (quote _ _) as [w|]; [|discriminate].
    inversion H; subst. exists w; auto.
Qed.

Lemma In_flat_map_opt {A : Type} (c : A) (rs : list (option A)) :
  In c (flat_map opt_list rs) <-> In (Some c) rs.
Proof.
  rewrite in_flat_map. split.
  - intros ([a|] & Hin & Hc); simpl in Hc; [|tauto].
    destruct Hc as [->|[]]; exact Hin.
  - intros H. exists (Some c); simpl; auto.
Qed.

Lemma collected_In {A B : Type} (f : A -> M B) (items : list A)
  (rs : list B) (r : B) :
  Forall2 (fun m r => snd m = inr r) (map f items) rs ->
  In r rs ->
  exists item o, In item items /\ f item = (o, inr r).
Proof.
  revert rs. induction items as [|item items IH]; intros rs HF Hr;
    simpl in HF; inversion HF as [|m r' ms rs' Hm HF']; subst.
  - destruct Hr.
  - destruct Hr as [->|Hr].
    + exists item, (fst (f item)). split; [left; reflexivity|].
      destruct (f item); simpl in *; subst; reflexivity.
    + destruct (IH _ HF' Hr) as (i & o & Hi & Ho).
      exists i, o. split; [right; exact Hi | exact Ho].
Qed.

(** The children of a scanned directory, one by one. *)
Lemma scan_directory_child (path : str) (entries : list (str * entry))
  (out : list event) (t c : value) :
  scan_directory path (Dir entries) = (out, inr t) ->
  In c (children_of t) ->
  exists item o,
    In item (map fst entries)
    /\ scan_child path entries item = (o, inr (Some c)).
Proof.
  rewrite scan_directory_children. intros H Hc.
  apply bind_inr in H as (o1 & cs & o2 & Hcol & Hr & ->).
  inversion Hr; subst. change (In c cs) in Hc.
  apply collect_inr in Hcol as (rs & HF & -> & _).
  apply In_flat_map_opt in Hc.
  destruct (collected_In _ _ _ _ HF Hc) as (item & o & Hi & Hm).
  exists item, o. split; [apply sorted_In, Hi | exact Hm].
Qed.

Lemma InTree_inv (n t : value) :
  InTree n t -> n = t \/ exists c, In c (children_of t) /\ InTree n c.
Proof.
  intros H. destruct H as [|t cs c Hg Hc Hn]; [left; reflexivity|].
  right. exists c. unfold children_of. rewrite Hg. auto.
Qed.

Lemma InTree_media (n : value) (item ext web_path : str) :
  InTree n (media_node item ext web_path) -> n = media_node item ext web_path.
Proof.
  intros H. apply InTree_inv in H as [H|(c & Hc & _)]; [exact H|].
  destruct Hc.
Qed.

Lemma scan_leaf_children (path : str) (e : entry) (out : list event)
  (t : value) :
  (forall entries, e <> Dir entries) ->
  scan_directory path e = (out, inr t) -> children_of t = [].
Proof.
  intros He. destruct e as [ | | | | entries];
    try (cbn; intros H; inversion H; subst; reflexivity).
  elim (He entries); reflexivity.
Qed.

(** Every node below the root of a scan is the node of a media file the
    scan met or of a directory it entered. *)
Lemma nodes_below (e : entry) :
  forall (root : str) (out : list event) (t : value),
    scan_directory root e = (out, inr t) ->
    forall c, In c (children_of t) ->
    forall n, InTree n c ->
    is_media_of root e n \/ is_subfolder_of root e n.
Proof.
  induction e as [ | | | | entries IH] using entry_induction;
    intros root out t Hscan c Hc n Hn.
  1-4: apply scan_leaf_children in Hscan;
       [rewrite Hscan in Hc; destruct Hc | intros; discriminate].
  destruct (scan_directory_child _ _ _ _ _ Hscan Hc) as (item & o & Hi & Hch).
  apply scan_child_Some in Hch
      as (Hh & [(Hd & Hsub)|(Hf & He & w & Hq & ->)]).
  - (* a sub-directory *)
    apply InTree_inv in Hn as [->|(c' & Hc' & Hn)].
    + right. exists root, entries, item, o.
      repeat split; auto using visits_root.
    + assert (Hv : visits root (Dir entries) (join root item)
                     (resolve item entries))
        by (apply visits_sub; auto using visits_root).
      destruct (IH item _ _ _ Hsub _ Hc' _ Hn)
        as [(p & es & i & w & Hp & H)|(p & es & i & o' & Hp & H)].
      * left. exists p, es, i, w. split; [|exact H].
        eapply visits_trans; eassumption.
      * right. exists p, es, i, o'. split; [|exact H].
        eapply visits_trans; eassumption.
  - (* a media file *)
    apply InTree_media in Hn as ->.
    left. exists root, entries, item, w.
    repeat split; auto using visits_root.
Qed.

(** Every node of the tree of a scan: the root, a media file, or a
    directory below the root. *)
Lemma nodes_of_scan (root : str) (e : entry) (out : list event)
  (t n : value) :
  scan_directory root e = (out, inr t) ->
  InTree n t ->
  n = t \/ is_media_of root e n \/ is_subfolder_of root e n.
Proof.
  intros Hscan Hn. apply InTree_inv in Hn as [->|(c & Hc & Hn)];
    [left; reflexivity | right].
  eapply nodes_below; eassumption.
Qed.

(** ** The round trip of [quote] *)

(** Splitting a number into a six-bit digit and the rest. *)
Lemma split64 (c : N) : exists q m, c = 64 * q + m /\ m < 64 /\ c / 64 = q /\ c mod 64 = m.
Proof.
  exists (c / 64), (c mod 64). repeat split.
  - apply N.div_mod; discriminate.
  - apply N.mod_lt; discriminate.
Qed.

Lemma utf8_decode_char_aux (c : char) (rest : list N) :
  match utf8_encode_char c with
  | Some bs => utf8_decode (bs ++ rest) = option_map (cons c) (utf8_decode rest)
  | None => True
  end.
Proof.
  unfold utf8_encode_char.
  replace (c / 262144) with (c / 64 / 64 / 64)
    by (rewrite !N.Div0.div_div; reflexivity).
  replace (c / 4096) with (c / 64 / 64)
    by (rewrite !N.Div0.div_div; reflexivity).
  destruct (split64 c) as (q1 & m1 & E1 & L1 & -> & ->).
  destruct (split64 q1) as (q2 & m2 & E2 & L2 & -> & ->).
  destruct (split64 q2) as (q3 & m3 & E3 & L3 & -> & ->).
  destruct (N.ltb_spec c 128).
  { cbn [app utf8_decode].
    destruct (N.ltb_spec c 128); [reflexivity | lia]. }
  destruct (N.ltb_spec c 2048).
  { cbn [app utf8_decode].
    unfold is_cont. cbv zeta. 
    cases_ltb. cbn [andb]. do 2 f_equal. lia. }
  destruct (N.ltb_spec c 65536).
  { destruct (N.leb_spec 55296 c); destruct (N.leb_spec c 57343); cbn [andb];
      try exact I;
    cbn [app utf8_decode];
    unfold is_cont, is_surrogate; cbv zeta;
    cases_ltb; cbn [andb negb]; do 2 f_equal; lia. }
  destruct (N.ltb_spec c 1114112); [|exact I].
  cbn [app utf8_decode];
    unfold is_cont; cbv zeta; cases_ltb; cbn [andb negb]; do 2 f_equal; lia.
Qed.

Lemma utf8_decode_encode (s : str) (bs : list N) :
  utf8_encode s = Some bs -> utf8_decode bs = Some s.
Proof.
  revert bs. induction s as [|c s IH]; intros bs; cbn [utf8_encode].
  - intros H; injection H as <-; reflexivity.
  - pose proof (utf8_decode_char_aux c) as Hc.
    destruct (utf8_encode_char c) as [b1|]; [|discriminate].
    destruct (utf8_encode s) as [b2|]; [|discriminate].
    intros H; injection H as <-. rewrite Hc, (IH b2 eq_refl); reflexivity.
Qed.

Lemma utf8_encode_char_bytes (c : char) :
  match utf8_encode_char c with
  | Some bs => Forall is_byte bs
  | None => True
  end.
Proof.
  unfold utf8_encode_char, is_byte.
  replace (c / 262144) with (c / 64 / 64 / 64)
    by (rewrite !N.Div0.div_div; reflexivity).
  replace (c / 4096) with (c / 64 / 64)
    by (rewrite !N.Div0.div_div; reflexivity).
  destruct (split64 c) as (q1 & m1 & E1 & L1 & -> & ->).
  destruct (split64 q1) as (q2 & m2 & E2 & L2 & -> & ->).
  destruct (split64 q2) as (q3 & m3 & E3 & L3 & -> & ->).
  repeat match goal with
         | |- context [?a <? ?b] => destruct (N.ltb_spec a b)
         | |- context [?a && ?b] => destruct (a && b)
         end;
    try exact I; repeat apply Forall_cons; try apply Forall_nil; lia.
Qed.

Lemma utf8_encode_bytes (s : str) (bs : list N) :
  utf8_encode s = Some bs -> Forall is_byte bs.
Proof.
  revert bs. induction s as [|c s IH]; intros bs; cbn [utf8_encode].
  - intros H; injection H as <-; constructor.
  - destruct (utf8_encode_char c) as [b1|] eqn:E1; [|discriminate].
    destruct (utf8_encode s) as [b2|]; [|discriminate].
    intros H; injection H as <-. apply Forall_app; split.
    + pose proof (utf8_encode_char_bytes c) as Hc. rewrite E1 in Hc; exact Hc.
    + apply IH; reflexivity.
Qed.

Lemma utf8_encode_ascii (s : str) :
  Forall (fun c => c < 128) s -> utf8_encode s = Some s.
Proof.
  induction 1 as [|c s Hc _ IH]; cbn [utf8_encode]; [reflexivity|].
  unfold utf8_encode_char. destruct (N.ltb_spec c 128); [|lia].
  rewrite IH; reflexivity.
Qed.

Lemma hex_digit_ascii (n : N) : n < 16 -> hex_digit n < 128.
Proof. unfold hex_digit; destruct (n <? 10); lia. Qed.

Lemma hex_value_digit (n : N) : n < 16 -> hex_value (hex_digit n) = Some n.
Proof.
  intros H. unfold hex_value, hex_digit.
  destruct (N.ltb_spec n 10); cases_ltb; cbn [andb]; f_equal; lia.
Qed.

Lemma always_safe_ascii (b : N) : always_safe b = true -> b < 128 /\ b <> c_percent.
Proof.
  unfold always_safe, c_percent.
  rewrite !orb_true_iff, !andb_true_iff, !N.leb_le, !N.eqb_eq. lia.
Qed.

(** What the quoter of [quote(_, safe='/')] gives for one byte. *)
Lemma quoter_slash (b : N) (rest : list N) :
  is_byte b ->
  Forall (fun c => c < 128) (quoter [c_slash] b)
  /\ percent_decode (quoter [c_slash] b ++ rest) = b :: percent_decode rest.
Proof.
  unfold is_byte, quoter. intros Hb.
  destruct (always_safe b || existsb (N.eqb b) [c_slash]) eqn:E.
  - assert (Hs : b < 128 /\ b <> c_percent).
    { apply orb_true_iff in E as [E|E]; [apply always_safe_ascii, E|].
      simpl in E. rewrite orb_false_r in E. apply N.eqb_eq in E.
      subst b. unfold c_slash, c_percent; lia. }
    destruct Hs as [Hlt Hne]. split; [apply Forall_cons; [exact Hlt | apply Forall_nil]|].
    cbn [app percent_decode]. apply N.eqb_neq in Hne. rewrite Hne; reflexivity.
  - assert (Hq : b / 16 < 16) by (apply N.Div0.div_lt_upper_bound; lia).
    assert (Hr : b mod 16 < 16) by (apply N.mod_lt; discriminate).
    split.
    + repeat apply Forall_cons; try apply Forall_nil;
        [unfold c_percent; lia | |]; apply hex_digit_ascii; assumption.
    + cbn [app percent_decode]. rewrite N.eqb_refl, !hex_value_digit by assumption.
      f_equal. symmetry; apply N.div_mod; discriminate.
Qed.

Lemma quote_from_bytes_slash (bs : list N) :
  Forall is_byte bs ->
  Forall (fun c => c < 128) (quote_from_bytes bs (lit "/"))
  /\ percent_decode (quote_from_bytes bs (lit "/")) = bs.
Proof.
  unfold quote_from_bytes. change (filter _ (lit "/")) with [c_slash].
  induction 1 as [|b bs Hb _ [IH1 IH2]]; cbn [flat_map]; [split; [constructor | reflexivity]|].
  destruct (quoter_slash b (flat_map (quoter [c_slash]) bs) Hb) as [H1 H2].
  split; [apply Forall_app; split; assumption|].
  rewrite H2, IH2; reflexivity.
Qed.

(** Percent-decoding what [quote] made gives the string back. *)
Lemma unquote_quote (s web_path : str) :
  quote s (lit "/") = Some web_path -> unquote web_path = Some s.
Proof.
  unfold quote, unquote. destruct (utf8_encode s) as [bs|] eqn:E; [|discriminate].
  intros H.
  assert (web_path = quote_from_bytes bs (lit "/")) by congruence.
  subst web_path. clear H.
  destruct (quote_from_bytes_slash bs (utf8_encode_bytes _ _ E)) as [H1 H2].
  rewrite (utf8_encode_ascii _ H1), H2. apply utf8_decode_encode, E.
Qed.

(** ** The fields of the nodes *)

Lemma folder_with_type (p : str) (cs : list value) :
  getitem (folder_with p cs) (lit "type") = Some (VStr (lit "folder")).
Proof. reflexivity. Qed.

Lemma folder_with_id (p : str) (cs : list value) :
  getitem (folder_with p cs) (lit "id") = Some (VStr (generate_safe_id p)).
Proof. reflexivity. Qed.

Lemma folder_with_name (p : str) (cs : list value) :
  getitem (folder_with p cs) (lit "name")
  = Some (VStr (py_or (basename p) (lit "Home"))).
Proof. reflexivity. Qed.

Lemma folder_with_children (p : str) (cs : list value) :
  getitem (folder_with p cs) (lit "children") = Some (VList cs).
Proof. reflexivity. Qed.

Lemma media_node_type (item ext w : str) :
  getitem (media_node item ext w) (lit "type")
  = Some (VStr (if mem ext VID_EXTENSIONS then lit "video" else lit "image")).
Proof. reflexivity. Qed.

Lemma media_node_name (item ext w : str) :
  getitem (media_node item ext w) (lit "name") = Some (VStr item).
Proof. reflexivity. Qed.

Lemma media_node_id (item ext w : str) :
  getitem (media_node item ext w) (lit "id")
  = Some (VStr (replace c_space [c_underscore]
                  (replace c_dot [c_underscore] item))).
Proof. reflexivity. Qed.

Lemma media_node_src (item ext w : str) :
  getitem (media_node item ext w) (lit "src") = Some (VStr w).
Proof. reflexivity. Qed.

Lemma media_node_thumbnail (item ext w : str) :
  getitem (media_node item ext w) (lit "thumbnail") = Some (VStr w).
Proof. reflexivity. Qed.

Lemma media_node_date (item ext w : str) :
  getitem (media_node item ext w) (lit "date") = Some (VStr []).
Proof. reflexivity. Qed.

Lemma folder_with_not_media (p : str) (cs : list value) :
  ~ is_media (folder_with p cs).
Proof. unfold is_media. rewrite folder_with_type. intros [H|H]; discriminate. Qed.

Lemma media_node_not_folder (item ext w : str) :
  ~ is_folder (media_node item ext w).
Proof.
  unfold is_folder. rewrite media_node_type.
  destruct (mem ext VID_EXTENSIONS); discriminate.
Qed.

Lemma media_node_is_media (item ext w : str) :
  is_media (media_node item ext w).
Proof.
  unfold is_media. rewrite media_node_type.
  destruct (mem ext VID_EXTENSIONS); auto.
Qed.

(** The media nodes of the tree of a scan. *)
Lemma media_nodes_of_scan (root : str) (e : entry) (out : list event)
  (t n : value) :
  scan_directory root e = (out, inr t) ->
  InTree n t -> is_media n -> is_media_of root e n.
Proof.
  intros Hscan Hn Hm.
  destruct (nodes_of_scan _ _ _ _ _ Hscan Hn)
    as [->|[H|(p & es & i & o & _ & _ & _ & _ & Hsub)]]; [|exact H|].
  - destruct (scan_shape _ _ _ _ Hscan) as (cs & ->).
    elim (folder_with_not_media _ _ Hm).
  - destruct (scan_shape _ _ _ _ Hsub) as (cs & ->).
    elim (folder_with_not_media _ _ Hm).
Qed.

(** The folder nodes of the tree of a scan: each is what the scan
    returned for a path it was called on. *)
Lemma folder_nodes_of_scan (root : str) (e : entry) (out : list event)
  (t n : value) :
  scan_directory root e = (out, inr t) ->
  InTree n t -> is_folder n ->
  exists p e' out',
    visits root e p e' /\ scan_directory p e' = (out', inr n).
Proof.
  intros Hscan Hn Hf.
  destruct (nodes_of_scan _ _ _ _ _ Hscan Hn)
    as [->|[(p & es & i & w & _ & _ & _ & _ & _ & _ & ->)
           |(p & es & i & o & Hv & Hi & Hh & Hd & Hsub)]].
  - exists root, e, out. split; [apply visits_root | exact Hscan].
  - elim (media_node_not_folder _ _ _ Hf).
  - exists (join p i), (resolve i es), o.
    split; [apply visits_sub; assumption | exact Hsub].
Qed.

(** ** Identifiers *)

Lemma replace_flat_map (old : char) (new s : str) :
  replace old new s = flat_map (fun c => if c =? old then new else [c]) s.
Proof. induction s as [|c s IH]; simpl; [|rewrite IH]; reflexivity. Qed.

Lemma flat_map_flat_map {A B C : Type} (f : A -> list B) (g : B -> list C)
  (l : list A) :
  flat_map g (flat_map f l) = flat_map (fun a => flat_map g (f a)) l.
Proof.
  induction l as [|a l IH]; simpl; [reflexivity|].
  rewrite flat_map_app, IH; reflexivity.
Qed.

Lemma generate_safe_id_spec (path : str) :
  generate_safe_id path = folder_id_spec path.
Proof.
  unfold generate_safe_id, folder_id_spec. f_equal.
  rewrite !replace_flat_map, !flat_map_flat_map.
  apply flat_map_ext; intros c.
  unfold sep, c_slash, c_space, c_dot, c_underscore.
  destruct (N.eqb_spec c 47) as [->|H1]; [reflexivity|].
  destruct (N.eqb_spec c 32) as [->|H2]; [reflexivity|].
  destruct (N.eqb_spec c 46) as [->|H3]; [reflexivity|].
  simpl. apply N.eqb_neq in H2, H3. rewrite H2; simpl. rewrite H3; reflexivity.
Qed.

Lemma media_id_replace (item : str) :
  replace c_space [c_underscore] (replace c_dot [c_underscore] item)
  = media_id_spec item.
Proof.
  unfold media_id_spec. rewrite !replace_flat_map, flat_map_flat_map.
  induction item as [|c item IH]; simpl; [reflexivity|].
  rewrite IH. f_equal.
  unfold c_space, c_dot, c_underscore.
  destruct (N.eqb_spec c 46) as [->|H1]; [reflexivity|].
  simpl. destruct (c =? 32); reflexivity.
Qed.

(** ** The properties of the tree *)

(** C1.  For every media node of the tree, percent-decoding its [src]
    (every character but the ['%XX'] escapes taken literally, the
    separator included) gives back the path of the file joined from the
    root, with backslashes normalised to forward slashes. *)
Theorem source_path_round_trip (root : str) (e : entry) (out : list event)
  (t n : value) :
  scan_directory root e = (out, inr t) ->
  InTree n t ->
  is_media n ->
  exists p entries item web_path,
    visits root e p (Dir entries)
    /\ In item (map fst entries)
    /\ resolve item entries = RegFile
    /\ getitem n (lit "name") = Some (VStr item)
    /\ getitem n (lit "src") = Some (VStr web_path)
    /\ unquote web_path
       = Some (replace c_backslash [c_slash] (join p item)).
Proof.
  intros Hscan Hn Hm.
  destruct (media_nodes_of_scan _ _ _ _ _ Hscan Hn Hm)
    as (p & es & item & w & Hv & Hi & _ & Hr & _ & Hq & ->).
  exists p, es, item, w. repeat split; try assumption.
  apply unquote_quote, Hq.
Qed.

(** C2.  The id of every folder node of the tree is the path the scan
    reached the folder under, joined from the root argument, with every
    separator and every space replaced by an underscore, every dot
    removed, and the result lowercased. *)
Theorem folder_id_from_path (root : str) (e : entry) (out : list event)
  (t n : value) :
  scan_directory root e = (out, inr t) ->
  InTree n t ->
  is_folder n ->
  exists p e' out',
    visits root e p e'
    /\ scan_directory p e' = (out', inr n)
    /\ getitem n (lit "id") = Some (VStr (folder_id_spec p)).
Proof.
  intros Hscan Hn Hf.
  destruct (folder_nodes_of_scan _ _ _ _ _ Hscan Hn Hf)
    as (p & e' & out' & Hv & Hsub).
  exists p, e', out'. repeat split; try assumption.
  destruct (scan_shape _ _ _ _ Hsub) as (cs & ->).
  rewrite folder_with_id, generate_safe_id_spec; reflexivity.
Qed.

(** C3.  The id of every media node of the tree is the name of the file
    alone, as the listing of its directory gives it, with every dot and
    every space replaced by an underscore and every other character,
    whatever its case, unchanged. *)
Theorem media_id_from_name (root : str) (e : entry) (out : list event)
  (t n : value) :
  scan_directory root e = (out, inr t) ->
  InTree n t ->
  is_media n ->
  exists p entries item,
    visits root e p (Dir entries)
    /\ In item (map fst entries)
    /\ resolve item entries = RegFile
    /\ getitem n (lit "name") = Some (VStr item)
    /\ getitem n (lit "id") = Some (VStr (media_id_spec item)).
Proof.
  intros Hscan Hn Hm.
  destruct (media_nodes_of_scan _ _ _ _ _ Hscan Hn Hm)
    as (p & es & item & w & Hv & Hi & _ & Hr & _ & _ & ->).
  exists p, es, item. repeat split; try assumption.
  rewrite media_node_id, media_id_replace; reflexivity.
Qed.

(** C7.  Every node of the tree whose type is folder has a [children]
    field that is a list; every node whose type is image or video has the
    fields [src], [thumbnail] and [date], the thumbnail being the source
    and the date the empty string. *)
Theorem node_fields (root : str) (e : entry) (out : list event)
  (t n : value) :
  scan_directory root e = (out, inr t) ->
  InTree n t ->
  (is_folder n ->
   exists cs, getitem n (lit "children") = Some (VList cs))
  /\ (is_media n ->
      exists web_path,
        getitem n (lit "src") = Some (VStr web_path)
        /\ getitem n (lit "thumbnail") = Some (VStr web_path)
        /\ getitem n (lit "date") = Some (VStr [])).
Proof.
  intros Hscan Hn. split.
  - intros Hf.
    destruct (folder_nodes_of_scan _ _ _ _ _ Hscan Hn Hf)
      as (p & e' & out' & _ & Hsub).
    destruct (scan_shape _ _ _ _ Hsub) as (cs & ->).
    exists cs. apply folder_with_children.
  - intros Hm.
    destruct (media_nodes_of_scan _ _ _ _ _ Hscan Hn Hm)
      as (p & es & item & w & _ & _ & _ & _ & _ & _ & ->).
    exists w. repeat split.
Qed.

(** ** The order of the children *)

Lemma str_le_trans (a b c : str) : str_le a b -> str_le b c -> str_le a c.
Proof.
  unfold str_le, str_leb. revert b c.
  induction a as [|x a IH]; intros [|y b] [|z c]; simpl;
    try reflexivity; try discriminate.
  destruct (N.compare_spec x y), (N.compare_spec y z), (N.compare_spec x z);
    subst; try lia; try discriminate; try reflexivity.
  apply IH.
Qed.

Lemma str_le_total (a b : str) : str_leb a b = false -> str_le b a.
Proof.
  unfold str_le, str_leb. revert b.
  induction a as [|x a IH]; intros [|y b]; simpl;
    try reflexivity; try discriminate.
  destruct (N.compare_spec x y), (N.compare_spec y x);
    subst; try lia; try discriminate; try reflexivity.
  apply IH.
Qed.

Lemma str_le_antisym (a b : str) : str_le a b -> str_le b a -> a = b.
Proof.
  unfold str_le, str_leb. revert b.
  induction a as [|x a IH]; intros [|y b]; simpl;
    try reflexivity; try discriminate.
  destruct (N.compare_spec x y), (N.compare_spec y x);
    subst; try lia; try discriminate.
  intros H1 H2. f_equal. apply IH; assumption.
Qed.

Lemma insert_sorted_sorted (x : str) (l : list str) :
  StronglySorted str_le l -> StronglySorted str_le (insert_sorted x l).
Proof.
  induction 1 as [|y l Hl IH Hy]; simpl.
  - constructor; constructor.
  - destruct (str_leb x y) eqn:E.
    + constructor; [constructor; assumption|].
      constructor; [exact E|].
      eapply Forall_impl; [|exact Hy].
      intros z Hz. eapply str_le_trans; [exact E | exact Hz].
    + constructor; [exact IH|].
      eapply Permutation_Forall;
        [apply Permutation_sym, insert_sorted_perm|].
      constructor; [apply str_le_total, E | exact Hy].
Qed.

Lemma sorted_sorted (l : list str) : StronglySorted str_le (sorted l).
Proof.
  induction l as [|x l IH]; simpl; [constructor|].
  apply insert_sorted_sorted, IH.
Qed.

Lemma rfind_from_app (c : char) (a b : str) (i last : Z) :
  rfind_from c (a ++ b) i last
  = rfind_from c b (i + Z.of_nat (List.length a)) (rfind_from c a i last).
Proof.
  revert i last. induction a as [|x a IH]; intros i last.
  - simpl. rewrite Z.add_0_r; reflexivity.
  - cbn [app rfind_from List.length]. rewrite IH. f_equal. lia.
Qed.

Lemma rfind_from_absent (c : char) (s : str) (i last : Z) :
  existsb (N.eqb c) s = false -> rfind_from c s i last = last.
Proof.
  revert i. induction s as [|x s IH]; intros i; simpl; [reflexivity|].
  intros H. apply orb_false_iff in H as [H1 H2].
  rewrite N.eqb_sym, H1. apply IH, H2.
Qed.

Lemma basename_after_sep (a b : str) :
  existsb (N.eqb sep) b = false -> basename (a ++ sep :: b) = b.
Proof.
  intros H. unfold basename, rfind, slice_from.
  rewrite rfind_from_app. cbn [rfind_from]. rewrite N.eqb_refl.
  rewrite rfind_from_absent by exact H.
  replace (Z.to_nat (0 + Z.of_nat (List.length a) + 1))
    with (List.length a + 1)%nat by lia.
  rewrite skipn_app, skipn_all2 by lia.
  replace (List.length a + 1 - List.length a)%nat with 1%nat by lia.
  reflexivity.
Qed.

Lemma basename_no_sep (b : str) :
  existsb (N.eqb sep) b = false -> basename b = b.
Proof.
  intros H. unfold basename, rfind, slice_from.
  rewrite rfind_from_absent by exact H. reflexivity.
Qed.

(** The name a folder gets is the name of its entry. *)
Lemma folder_name_item (p item : str) :
  valid_name item = true ->
  py_or (basename (join p item)) (lit "Home") = item.
Proof.
  unfold valid_name. rewrite andb_true_iff, !negb_true_iff.
  intros [Hne Hsep].
  assert (Hb : basename (join p item) = item).
  { unfold join.
    destruct item as [|x item]; [discriminate|].
    assert (Hs := Hsep). cbn [existsb] in Hsep.
    apply orb_false_iff in Hsep as [Hx Hsep'].
    cbn [startswith]. rewrite Hx. cbn [andb].
    destruct p as [|y p]; [apply basename_no_sep, Hs|].
    unfold endswith_char.
    destruct (rev (y :: p)) as [|z r] eqn:Er.
    - apply (f_equal (@rev _)) in Er. rewrite rev_involutive in Er.
      discriminate.
    - destruct (N.eqb_spec z sep) as [->|Hz].
      + apply (f_equal (@rev _)) in Er. rewrite rev_involutive in Er.
        rewrite Er. cbn [rev]. rewrite <- app_assoc.
        apply basename_after_sep, Hs.
      + apply basename_after_sep, Hs. }
  rewrite Hb. destruct item; [discriminate | reflexivity].
Qed.

Lemma names_valid_resolve (entries : list (str * entry)) (item : str) :
  names_valid (Dir entries) = true ->
  names_valid (resolve item entries) = true.
Proof.
  unfold resolve. cbn [names_valid].
  induction entries as [|[k e'] entries IH]; simpl; [reflexivity|].
  rewrite !andb_true_iff. intros [[_ He] Hrest].
  destruct (str_eqb item k); [exact He | apply IH, Hrest].
Qed.

Lemma names_valid_item (entries : list (str * entry)) (item : str) :
  names_valid (Dir entries) = true ->
  In item (map fst entries) -> valid_name item = true.
Proof.
  cbn [names_valid]. rewrite forallb_forall, in_map_iff.
  intros H ([k e'] & <- & Hin). apply H in Hin.
  apply andb_true_iff in Hin as [Hk _]. exact Hk.
Qed.

Lemma names_valid_visits (root p : str) (e e' : entry) :
  names_valid e = true -> visits root e p e' -> names_valid e' = true.
Proof.
  intros He Hv. induction Hv; [exact He|].
  apply names_valid_resolve; assumption.
Qed.

(** The node an item adds carries the name of the item. *)
Lemma scan_child_name (path : str) (entries : list (str * entry))
  (item : str) (o : list event) (c : value) :
  valid_name item = true ->
  scan_child path entries item = (o, inr (Some c)) ->
  has_name c item.
Proof.
  intros Hv H. apply scan_child_Some in H
      as (_ & [(_ & Hsub)|(_ & _ & w & _ & ->)]).
  - destruct (scan_shape _ _ _ _ Hsub) as (cs & ->).
    unfold has_name. rewrite folder_with_name, folder_name_item by exact Hv.
    reflexivity.
  - apply media_node_name.
Qed.

Lemma collected_names (path : str) (entries : list (str * entry))
  (items : list str) (rs : list (option value)) :
  Forall (fun i => valid_name i = true) items ->
  StronglySorted str_le items ->
  Forall2 (fun m r => snd m = inr r)
    (map (scan_child path entries) items) rs ->
  exists names,
    Forall2 has_name (flat_map opt_list rs) names
    /\ StronglySorted str_le names
    /\ incl names items.
Proof.
  intros Hv Hs. revert rs.
  induction Hs as [|item items Hs IH Hle]; intros rs HF;
    simpl in HF; inversion HF as [|m r ms rs' Hm HF']; subst.
  - exists []. repeat split; [constructor | constructor | apply incl_refl].
  - inversion Hv as [|? ? Hitem Hv']; subst.
    destruct (IH Hv' _ HF') as (names & Hn & Hsn & Hin).
    destruct r as [c|]; cbn [flat_map opt_list app].
    + exists (item :: names). repeat split.
      * constructor; [|exact Hn].
        destruct (scan_child path entries item) as [o x] eqn:E.
        simpl in Hm; subst x. eapply scan_child_name; eassumption.
      * constructor; [exact Hsn|].
        apply Forall_forall. intros x Hx.
        apply (proj1 (Forall_forall _ _) Hle), Hin, Hx.
      * intros x [->|Hx]; [left; reflexivity | right; apply Hin, Hx].
    + exists names. repeat split; [exact Hn | exact Hsn |].
      intros x Hx; right; apply Hin, Hx.
Qed.

(** The children of what a scan returns, by name. *)
Lemma children_names_sorted (p : str) (e : entry) (o : list event)
  (n : value) :
  names_valid e = true ->
  scan_directory p e = (o, inr n) ->
  exists names,
    Forall2 has_name (children_of n) names
    /\ StronglySorted str_le names
    /\ (forall name, In name names ->
        exists entries, e = Dir entries /\ In name (map fst entries)).
Proof.
  intros Hv Hscan.
  destruct e as [ | | | | entries].
  1-4: apply scan_leaf_children in Hscan; [|intros; discriminate];
       rewrite Hscan; exists [];
       repeat split; [constructor | constructor | intros ? []].
  rewrite scan_directory_children in Hscan.
  apply bind_inr in Hscan as (o1 & cs & o2 & Hcol & Hr & ->).
  inversion Hr; subst. change (children_of (folder_with p cs)) with cs.
  apply collect_inr in Hcol as (rs & HF & -> & _).
  destruct (collected_names p entries (sorted (map fst entries)) rs)
    as (names & Hn & Hs & Hin); [| apply sorted_sorted | exact HF |].
  - apply Forall_forall. intros i Hi.
    apply (names_valid_item entries); [exact Hv | apply sorted_In, Hi].
  - exists names. repeat split; [exact Hn | exact Hs |].
    intros name Hname. exists entries. split; [reflexivity|].
    apply sorted_In, Hin, Hname.
Qed.

(** C5.  A hidden entry, one whose name begins with a dot, appears
    nowhere in the tree, at no depth, as a folder or as a media file:
    every node below the root carries a name that does not begin with a
    dot. *)
Theorem hidden_entries_never_appear (root : str) (e : entry)
  (out : list event) (t c n : value) :
  names_valid e = true ->
  scan_directory root e = (out, inr t) ->
  In c (children_of t) ->
  InTree n c ->
  exists name, has_name n name /\ startswith (lit ".") name = false.
Proof.
  intros Hv Hscan Hc Hn.
  destruct (nodes_below _ _ _ _ Hscan _ Hc _ Hn)
    as [(p & es & item & w & _ & _ & Hh & _ & _ & _ & ->)
       |(p & es & item & o & Hp & Hi & Hh & _ & Hsub)];
    exists item; (split; [|exact Hh]).
  - apply media_node_name.
  - destruct (scan_shape _ _ _ _ Hsub) as (cs & ->).
    unfold has_name. rewrite folder_with_name, folder_name_item;
      [reflexivity|].
    eapply names_valid_item; [|exact Hi].
    eapply names_valid_visits; eassumption.
Qed.

(** C6.  The children of every folder node of the tree come in the
    order of the names of their entries, compared code point by code
    point (so case matters), sub-folders and media files together in the
    one order. *)
Theorem children_in_name_order (root : str) (e : entry) (out : list event)
  (t n : value) :
  names_valid e = true ->
  scan_directory root e = (out, inr t) ->
  InTree n t ->
  is_folder n ->
  exists names,
    Forall2 has_name (children_of n) names
    /\ StronglySorted str_le names.
Proof.
  intros Hv Hscan Hn Hf.
  destruct (folder_nodes_of_scan _ _ _ _ _ Hscan Hn Hf)
    as (p & e' & out' & Hp & Hsub).
  destruct (children_names_sorted _ _ _ _
              (names_valid_visits _ _ _ _ Hv Hp) Hsub)
    as (names & H1 & H2 & _).
  exists names; split; assumption.
Qed.

(** ** Which files become media nodes *)

Lemma collected_item {A B : Type} (f : A -> M B) (items : list A)
  (rs : list B) (item : A) :
  Forall2 (fun m r => snd m = inr r) (map f items) rs ->
  In item items ->
  exists r, In r rs /\ snd (f item) = inr r.
Proof.
  revert rs. induction items as [|i items IH]; intros rs HF Hi;
    simpl in HF; inversion HF as [|m r' ms rs' Hm HF']; subst.
  - destruct Hi.
  - destruct Hi as [->|Hi].
    + exists r'. split; [left; reflexivity | exact Hm].
    + destruct (IH _ HF' Hi) as (r & Hr & Hf).
      exists r. split; [right; exact Hr | exact Hf].
Qed.

Lemma mem_In (x : str) (s : list str) : mem x s = true <-> In x s.
Proof.
  unfold mem. rewrite existsb_exists. split.
  - intros (y & Hy & E). apply str_eqb_eq in E; subst; exact Hy.
  - intros H. exists x. split; [exact H | apply str_eqb_refl].
Qed.

(** No extension is both an image and a video extension. *)
Lemma image_not_video (ext : str) :
  mem ext IMG_EXTENSIONS = true -> mem ext VID_EXTENSIONS = false.
Proof.
  rewrite mem_In. unfold IMG_EXTENSIONS.
  intros H. repeat (destruct H as [<-|H]; [reflexivity|]). destruct H.
Qed.

Lemma scan_child_media (path : str) (entries : list (str * entry))
  (item : str) :
  hidden item = false ->
  resolve item entries = RegFile ->
  scan_child path entries item
  = if is_media_ext (extension item) then
      match quote (replace c_backslash [c_slash] (join path item)) (lit "/") with
      | None => raise UnicodeEncodeError
      | Some web_path =>
          ret (Some (media_node item (extension item) web_path))
      end
    else ret None.
Proof.
  intros Hh Hr. unfold scan_child, item_child. rewrite Hh, Hr. reflexivity.
Qed.

Lemma has_name_inj (c : value) (a b : str) :
  has_name c a -> has_name c b -> a = b.
Proof. unfold has_name. intros Ha Hb. congruence. Qed.

(** C4, as the code has it.  A regular file that is not hidden, in a
    directory the scan lists, becomes a media node exactly when its
    lowercased extension is in the image set or in the video set; the
    node is an image in the first case and a video in the second; with
    any other extension the loop goes on with the node as it was and
    prints nothing.  [PHOTO.JPG] and [photo.jpg] have the same
    classification. *)
Theorem media_files_by_extension (path : str) (entries : list (str * entry))
  (item : str) (out : list event) (t : value) :
  scan_directory path (Dir entries) = (out, inr t) ->
  In item (map fst entries) ->
  resolve item entries = RegFile ->
  hidden item = false ->
  ((exists c, In c (children_of t) /\ has_name c item /\ is_media c)
   <-> (mem (extension item) IMG_EXTENSIONS = true
        \/ mem (extension item) VID_EXTENSIONS = true))
  /\ (forall c,
       In c (children_of t) -> has_name c item -> is_media c ->
       (getitem c (lit "type") = Some (VStr (lit "image"))
        <-> mem (extension item) IMG_EXTENSIONS = true)
       /\ (getitem c (lit "type") = Some (VStr (lit "video"))
           <-> mem (extension item) VID_EXTENSIONS = true))
  /\ (mem (extension item) IMG_EXTENSIONS = false ->
      mem (extension item) VID_EXTENSIONS = false ->
      forall subscan node,
        scan_item path RegFile subscan item node = ret node)
  /\ extension (lit "PHOTO.JPG") = extension (lit "photo.jpg").
Proof.
  intros Hscan Hi Hr Hh.
  assert (Hback : forall c,
             In c (children_of t) -> has_name c item -> is_media c ->
             is_media_ext (extension item) = true
             /\ exists w, c = media_node item (extension item) w).
  { intros c Hc Hn Hm.
    destruct (scan_directory_child _ _ _ _ _ Hscan Hc) as (i & o & _ & Hch).
    apply scan_child_Some in Hch
        as (_ & [(_ & Hsub)|(_ & He & w & _ & ->)]).
    - destruct (scan_shape _ _ _ _ Hsub) as (cs & ->).
      elim (folder_with_not_media _ _ Hm).
    - assert (i = item)
        by (eapply has_name_inj; [apply media_node_name | exact Hn]).
      subst i. split; [exact He | exists w; reflexivity]. }
  split; [split|split; [|split]].
  - (* a media node of that name: the extension is in a set *)
    intros (c & Hc & Hn & Hm).
    destruct (Hback c Hc Hn Hm) as [He _].
    apply orb_true_iff, He.
  - (* the extension is in a set: the item has added its node *)
    intros He. apply orb_true_iff in He.
    rewrite scan_directory_children in Hscan.
    apply bind_inr in Hscan as (o1 & cs & o2 & Hcol & Hret & ->).
    inversion Hret; subst. change (children_of (folder_with path cs)) with cs.
    apply collect_inr in Hcol as (rs & HF & -> & _).
    destruct (collected_item _ _ _ item HF) as (r & Hin & Hf);
      [apply sorted_In, Hi|].
    rewrite scan_child_media in Hf by assumption.
    fold (is_media_ext (extension item)) in He. rewrite He in Hf.
    destruct (quote _ _) as [w|]; [|discriminate].
    simpl in Hf. inversion Hf; subst r.
    exists (media_node item (extension item) w).
    split; [apply In_flat_map_opt, Hin|].
    split; [apply media_node_name | apply media_node_is_media].
  - (* image or video *)
    intros c Hc Hn Hm. destruct (Hback c Hc Hn Hm) as [He (w & ->)].
    rewrite media_node_type. split; split.
    + intros Ht. apply orb_true_iff in He as [He|He]; [exact He|].
      rewrite He in Ht; discriminate.
    + intros Himg. rewrite (image_not_video _ Himg); reflexivity.
    + intros Ht. destruct (mem (extension item) VID_EXTENSIONS);
        [reflexivity | discriminate].
    + intros Hvid. rewrite Hvid; reflexivity.
  - (* any other extension *)
    intros H1 H2 subscan node. unfold scan_item.
    fold (hidden item). rewrite Hh. cbn [isdir isfile].
    fold (extension item). rewrite H1, H2. reflexivity.
  - reflexivity.
Qed.

(** ** Paths that cannot be scanned *)

(** C8.  A path that does not exist and a directory whose listing is
    denied each give the folder node with no children and one warning,
    and no exception; in the loop of the parent the node is appended and
    the remaining siblings are processed as usual. *)
Theorem unreadable_paths_recovered (path : str) :
  scan_directory path Missing
  = ([Print (lit "Warning: Path '" ++ path ++ lit "' not found.")],
     inr (folder_with path []))
  /\ scan_directory path DirDenied
     = ([Print (lit "Warning: Permission denied for '" ++ path ++ lit "'.")],
        inr (folder_with path []))
  /\ forall entries item rest node,
      hidden item = false ->
      resolve item entries = DirDenied ->
      for_each (item :: rest) (loop_body path entries) node
      = (warn_denied (join path item) ;;
         for_each rest (loop_body path entries)
           (children_append node (folder_with (join path item) []))).
Proof.
  split; [reflexivity|]. split; [reflexivity|].
  intros entries item rest node Hh Hr.
  cbn [for_each]. unfold loop_body at 1, scan_item.
  fold (hidden item). rewrite Hh, Hr. cbn [isdir].
  change (scan_directory (join path item) DirDenied)
    with (warn_denied (join path item) ;;
          ret (folder_with (join path item) [])).
  rewrite !bind_assoc. apply bind_ext; intros _.
  rewrite !bind_ret_l. reflexivity.
Qed.

(** ** Warnings *)

Lemma fst_bind_ret {A B : Type} (m : M A) (f : A -> B) :
  fst (a <- m ;; ret (f a)) = fst m.
Proof.
  destruct m as [o [x|a]]; simpl; [reflexivity | apply app_nil_r].
Qed.

Lemma scan_child_events (path : str) (entries : list (str * entry))
  (item : str) :
  fst (scan_child path entries item) = item_events path entries item.
Proof.
  unfold scan_child, item_child, item_events.
  destruct (hidden item); [reflexivity|].
  destruct (isdir (resolve item entries));
    [apply (fst_bind_ret _ (@Some value))|].
  destruct (isfile (resolve item entries)); [|reflexivity].
  destruct (is_media_ext (extension item)); [|reflexivity].
  destruct (quote _ _); reflexivity.
Qed.

(** What a scan that returns has printed: the warnings of its
    sub-directories, one directory after the other in the order of the
    names. *)
Lemma scan_directory_events (path : str) (entries : list (str * entry))
  (out : list event) (t : value) :
  scan_directory path (Dir entries) = (out, inr t) ->
  out = flat_map (item_events path entries) (sorted (map fst entries)).
Proof.
  rewrite scan_directory_children. intros H.
  apply bind_inr in H as (o1 & cs & o2 & Hcol & Hr & ->).
  inversion Hr; subst. rewrite app_nil_r.
  apply collect_inr in Hcol as (rs & _ & _ & ->).
  generalize (sorted (map fst entries)) as items.
  induction items as [|i items IH]; simpl; [reflexivity|].
  rewrite scan_child_events, IH; reflexivity.
Qed.

(** The sub-directories of a scan that returns have returned. *)
Lemma subscan_returns (path : str) (entries : list (str * entry))
  (out : list event) (t : value) (item : str) :
  scan_directory path (Dir entries) = (out, inr t) ->
  In item (map fst entries) ->
  hidden item = false ->
  isdir (resolve item entries) = true ->
  exists c,
    scan_directory (join path item) (resolve item entries)
    = (item_events path entries item, inr c).
Proof.
  rewrite scan_directory_children. intros H Hi Hh Hd.
  apply bind_inr in H as (o1 & cs & o2 & Hcol & _ & _).
  apply collect_inr in Hcol as (rs & HF & _ & _).
  destruct (collected_item _ _ _ item HF) as (r & _ & Hr);
    [apply sorted_In, Hi|].
  unfold item_events. rewrite Hh, Hd.
  unfold scan_child, item_child in Hr. rewrite Hh, Hd in Hr.
  destruct (scan_directory (join path item) (resolve item entries))
    as [o [x|c]]; [discriminate|].
  exists c; reflexivity.
Qed.

Lemma visits_leaf (root p : str) (e e' : entry) :
  (forall entries, e <> Dir entries) ->
  visits root e p e' -> p = root /\ e' = e.
Proof.
  intros He Hv. induction Hv as [|p entries item Hv IH Hi Hh Hd];
    [split; reflexivity|].
  destruct IH as [_ IH]. elim (He entries). symmetry; exact IH.
Qed.

(** A visit, seen from the root. *)
Lemma visits_inv (root p : str) (e e' : entry) :
  visits root e p e' ->
  (p = root /\ e' = e)
  \/ exists entries item,
      e = Dir entries
      /\ In item (map fst entries)
      /\ hidden item = false
      /\ isdir (resolve item entries) = true
      /\ visits (join root item) (resolve item entries) p e'.
Proof.
  intros Hv. induction Hv as [|p entries item Hv IH Hi Hh Hd];
    [left; split; reflexivity|].
  right. destruct IH as [[-> <-]|(es & i & -> & Hi' & Hh' & Hd' & Hv')].
  - exists entries, item. repeat split; try assumption. apply visits_root.
  - exists es, i. repeat split; try assumption.
    apply visits_sub; assumption.
Qed.

Lemma scan_events_anomalies (e : entry) :
  forall (root : str) (out : list event) (t : value),
    scan_directory root e = (out, inr t) ->
    forall ev,
      In ev out
      <-> exists p e', visits root e p e' /\ anomaly_warning p e' ev.
Proof.
  induction e as [ | | | | entries IH] using entry_induction;
    intros root out t Hscan ev.
  - (* nothing there *)
    cbn in Hscan. inversion Hscan; subst. split.
    + intros [<-|[]]. exists root, Missing.
      split; [apply visits_root | left; split; reflexivity].
    + intros (p & e' & Hv & Ha).
      apply visits_leaf in Hv as [-> ->]; [|intros; discriminate].
      destruct Ha as [[_ ->]|[Hd _]]; [left; reflexivity | discriminate].
  - discriminate.
  - discriminate.
  - (* listing denied *)
    cbn in Hscan. inversion Hscan; subst. split.
    + intros [<-|[]]. exists root, DirDenied.
      split; [apply visits_root | right; split; reflexivity].
    + intros (p & e' & Hv & Ha).
      apply visits_leaf in Hv as [-> ->]; [|intros; discriminate].
      destruct Ha as [[Hd _]|[_ ->]]; [discriminate | left; reflexivity].
  - (* a directory *)
    rewrite (scan_directory_events _ _ _ _ Hscan), in_flat_map. split.
    + intros (item & Hi & Hev). apply (proj1 (sorted_In _ _)) in Hi.
      unfold item_events in Hev.
      destruct (hidden item) eqn:Hh; [destruct Hev|].
      destruct (isdir (resolve item entries)) eqn:Hd; [|destruct Hev].
      destruct (subscan_returns _ _ _ _ item Hscan Hi Hh Hd) as (c & Hsub).
      unfold item_events in Hsub. rewrite Hh, Hd in Hsub.
      destruct (scan_directory (join root item) (resolve item entries))
        as [o r] eqn:E. simpl in Hev, Hsub. inversion Hsub; subst r.
      apply (IH item _ _ _ E) in Hev as (p & e' & Hv & Ha).
      exists p, e'. split; [|exact Ha].
      eapply visits_trans; [|exact Hv].
      apply visits_sub; auto using visits_root.
    + intros (p & e' & Hv & Ha).
      apply visits_inv in Hv
          as [[-> ->]|(es & item & Hes & Hi & Hh & Hd & Hv)].
      { destruct Ha as [[Ha _]|[Ha _]]; discriminate. }
      inversion Hes; subst es.
      destruct (subscan_returns _ _ _ _ item Hscan Hi Hh Hd) as (c & Hsub).
      exists item. split; [apply sorted_In, Hi|].
      apply (IH item _ _ _ Hsub). exists p, e'. split; assumption.
Qed.

(** What [generate] does with a scan that returns: the banner, the
    warnings of the scan, and the write; the call itself returns nothing. *)
Lemma generate_events (e : entry) (out : list event) (t : value)
  (write_error : option str) :
  path_exists e = true ->
  scan_directory IMAGE_ROOT e = (out, inr t) ->
  exists tail,
    generate e write_error
    = (Print (lit "--- GG Gallery Generator ---")
         :: Print (lit "Scanning directory: 'img'...")
         :: out ++ tail,
       inr tt).
Proof.
  intros Hex Hscan. destruct (scan_shape _ _ _ _ Hscan) as (cs & ->).
  unfold generate. rewrite Hex. cbn [negb]. rewrite Hscan.
  destruct write_error as [msg|]; eexists; reflexivity.
Qed.

(** C9, as the code has it.  The scan returns the folder node alone.
    What it reports, it prints: a scan that returns has printed exactly
    the warnings of the paths it was called on and found missing or
    denied; the warnings of a directory are those of its sub-directories
    one after the other, in the order of the names; and [generate] prints
    them after its banner and returns no value. *)
Theorem warnings_are_printed (root : str) (e : entry) (out : list event)
  (t : value) :
  scan_directory root e = (out, inr t) ->
  (forall ev,
      In ev out
      <-> exists p e', visits root e p e' /\ anomaly_warning p e' ev)
  /\ (forall entries,
        e = Dir entries ->
        out = flat_map (item_events root entries) (sorted (map fst entries)))
  /\ (root = IMAGE_ROOT ->
      path_exists e = true ->
      forall write_error,
      exists tail,
        generate e write_error
        = (Print (lit "--- GG Gallery Generator ---")
             :: Print (lit "Scanning directory: 'img'...")
             :: out ++ tail,
           inr tt)).
Proof.
  intros Hscan. split; [|split].
  - exact (scan_events_anomalies e root out t Hscan).
  - intros entries ->. exact (scan_directory_events _ _ _ _ Hscan).
  - intros -> Hex write_error. apply (generate_events e out t); assumption.
Qed.

(** ** When the scan returns *)









(** ** The order of enumeration *)

Lemma str_le_refl (a : str) : str_le a a.
Proof.
  unfold str_le, str_leb. induction a as [|x a IH]; simpl; [reflexivity|].
  rewrite N.compare_refl. exact IH.
Qed.

Lemma sorted_unique (l1 l2 : list str) :
  StronglySorted str_le l1 -> StronglySorted str_le l2 ->
  Permutation l1 l2 -> l1 = l2.
Proof.
  intros H1. revert l2. induction H1 as [|x l1 Hs IH Hx]; intros l2 H2 Hp.
  - apply Permutation_nil in Hp; subst; reflexivity.
  - destruct H2 as [|y l2 Hs2 Hy].
    + apply Permutation_sym, Permutation_nil in Hp; discriminate.
    + assert (x = y).
      { apply str_le_antisym.
        - assert (Hin : In y (x :: l1))
            by (eapply Permutation_in;
                [apply Permutation_sym, Hp | left; reflexivity]).
          destruct Hin as [->|Hin]; [apply str_le_refl|].
          exact (proj1 (Forall_forall _ _) Hx _ Hin).
        - assert (Hin : In x (y :: l2))
            by (eapply Permutation_in; [exact Hp | left; reflexivity]).
          destruct Hin as [->|Hin]; [apply str_le_refl|].
          exact (proj1 (Forall_forall _ _) Hy _ Hin). }
      subst y. f_equal. apply IH; [exact Hs2|].
      eapply Permutation_cons_inv; exact Hp.
Qed.

(** Sorting forgets the order of enumeration. *)
Lemma sorted_permutation (l1 l2 : list str) :
  Permutation l1 l2 -> sorted l1 = sorted l2.
Proof.
  intros Hp. apply sorted_unique; try apply sorted_sorted.
  rewrite !sorted_perm. exact Hp.
Qed.

Lemma nodupb_NoDup (l : list str) : nodupb l = true -> NoDup l.
Proof.
  induction l as [|x l IH]; simpl; [constructor|].
  rewrite andb_true_iff, negb_true_iff. intros [Hx Hl].
  constructor; [|apply IH, Hl].
  intros Hin. apply mem_In in Hin. congruence.
Qed.

Lemma assoc_permutation {A : Type} (k : str) (l1 l2 : list (str * A)) :
  NoDup (map fst l1) -> Permutation l1 l2 -> assoc k l1 = assoc k l2.
Proof.
  intros Hnd Hp. induction Hp as [|[k1 v1] l1 l2 Hp IH
                                 |[k1 v1] [k2 v2] l|l1 l2 l3 Hp1 IH1 Hp2 IH2].
  - reflexivity.
  - simpl. inversion Hnd; subst. rewrite IH by assumption. reflexivity.
  - simpl. destruct (str_eqb k k2) eqn:E2, (str_eqb k k1) eqn:E1;
      try reflexivity.
    apply str_eqb_eq in E1, E2. subst k1 k2.
    simpl in Hnd. inversion Hnd as [|? ? Hn _]; subst.
    elim Hn; left; reflexivity.
  - rewrite IH1 by exact Hnd. apply IH2.
    eapply Permutation_NoDup; [|exact Hnd].
    apply Permutation_map, Hp1.
Qed.

Lemma reordering_kind (e1 e2 : entry) :
  reordering e1 e2 -> isdir e1 = isdir e2 /\ isfile e1 = isfile e2.
Proof. intros H; destruct H; split; reflexivity. Qed.

Lemma reordering_names (l1 l1' : list (str * entry)) :
  Forall2 (fun a b => fst a = fst b /\ reordering (snd a) (snd b)) l1 l1' ->
  map fst l1 = map fst l1'.
Proof.
  induction 1 as [|a b l1 l1' [Hab _] _ IH]; simpl; [reflexivity|].
  rewrite Hab, IH; reflexivity.
Qed.

Lemma reordering_resolve (l1 l1' : list (str * entry)) (item : str) :
  Forall2 (fun a b => fst a = fst b /\ reordering (snd a) (snd b)) l1 l1' ->
  reordering (resolve item l1) (resolve item l1').
Proof.
  unfold resolve.
  induction 1 as [|[k1 a] [k2 b] l1 l1' [Hk Hab] _ IH]; simpl;
    [constructor|].
  simpl in Hk, Hab. subst k2.
  destruct (str_eqb item k1); [exact Hab | exact IH].
Qed.

Lemma unique_names_resolve (entries : list (str * entry)) (item : str) :
  unique_names (Dir entries) = true ->
  unique_names (resolve item entries) = true.
Proof.
  unfold resolve. cbn [unique_names]. rewrite andb_true_iff.
  intros [_ H]. induction entries as [|[k e'] entries IH]; simpl;
    [reflexivity|].
  simpl in H. apply andb_true_iff in H as [He Hrest].
  destruct (str_eqb item k); [exact He | apply IH, Hrest].
Qed.

(** C10.  The scan is a function of the snapshot, and it does not
    depend on the order in which the directories are enumerated: two
    snapshots that hold the same entries, in whatever order, give the
    same tree, the same warnings and the same outcome. *)
Theorem scan_independent_of_enumeration (path : str) (e1 e2 : entry) :
  unique_names e1 = true ->
  reordering e1 e2 ->
  scan_directory path e1 = scan_directory path e2.
Proof.
  revert e2 path.
  induction e1 as [ | | | | l1 IH] using entry_induction;
    intros e2 path Hu Hr; inversion Hr as [ | | | |? l1' l2 HF Hp];
    subst; try reflexivity.
  assert (Hnames : map fst l1 = map fst l1') by apply reordering_names, HF.
  assert (Hnd : NoDup (map fst l1')).
  { rewrite <- Hnames. apply nodupb_NoDup.
    cbn [unique_names] in Hu. apply andb_true_iff in Hu as [Hu _].
    exact Hu. }
  assert (Hres : forall item, reordering (resolve item l1) (resolve item l2)).
  { intros item.
    replace (resolve item l2) with (resolve item l1');
      [apply reordering_resolve, HF|].
    unfold resolve. rewrite (assoc_permutation item l1' l2 Hnd Hp).
    reflexivity. }
  rewrite !scan_directory_Dir.
  rewrite (sorted_permutation (map fst l1) (map fst l2))
    by (rewrite Hnames; apply Permutation_map, Hp).
  apply for_each_ext. intros item node.
  rewrite (IH item (resolve item l2) (join path item)
             (unique_names_resolve _ _ Hu) (Hres item)).
  destruct (reordering_kind _ _ (Hres item)) as [Hd Hf].
  unfold scan_item. rewrite Hd, Hf. reflexivity.
Qed.

(** ** The run of [generate] *)


(** ** What a scan prints and raises, whatever its outcome *)

Lemma fst_bind_In {A B : Type} (m : M A) (k : A -> M B) (ev : event) :
  In ev (fst (bind m k)) ->
  In ev (fst m) \/ exists a, snd m = inr a /\ In ev (fst (k a)).
Proof.
  destruct m as [o [x|a]]; simpl; [auto|].
  destruct (k a) as [o' r] eqn:E. simpl. rewrite in_app_iff.
  intros [H|H]; [left; exact H|].
  right. exists a. rewrite E. auto.
Qed.

Lemma collect_events {A : Type} (ms : list (M (option A))) (ev : event) :
  In ev (fst (collect ms)) -> exists m, In m ms /\ In ev (fst m).
Proof.
  induction ms as [|m ms IH]; cbn [collect]; [intros []|].
  intros H. apply fst_bind_In in H as [H|(r & _ & H)].
  - exists m. split; [left; reflexivity | exact H].
  - apply fst_bind_In in H as [H|(cs & _ & [])].
    destruct (IH H) as (m' & Hm & Hev).
    exists m'. split; [right; exact Hm | exact Hev].
Qed.



(** Every event of a scan, whatever its outcome, is the warning of a path
    the scan was called on. *)
Lemma scan_events_visits (e : entry) (root : str) (ev : event) :
  In ev (fst (scan_directory root e)) ->
  exists p e', visits root e p e' /\ anomaly_warning p e' ev.
Proof.
  revert root.
  induction e as [ | | | | entries IH] using entry_induction; intros root.
  - intros [<-|[]]. exists root, Missing.
    split; [apply visits_root | left; split; reflexivity].
  - intros [].
  - intros [].
  - intros [<-|[]]. exists root, DirDenied.
    split; [apply visits_root | right; split; reflexivity].
  - rewrite scan_directory_children. intros H.
    apply fst_bind_In in H as [H|(cs & _ & [])].
    apply collect_events in H as (m & Hm & Hev).
    apply in_map_iff in Hm as (item & <- & Hi).
    apply (proj1 (sorted_In _ _)) in Hi.
    rewrite scan_child_events in Hev. unfold item_events in Hev.
    destruct (hidden item) eqn:Hh; [destruct Hev|].
    destruct (isdir (resolve item entries)) eqn:Hd; [|destruct Hev].
    destruct (IH item _ Hev) as (p & e' & Hv & Ha).
    exists p, e'. split; [|exact Ha].
    eapply visits_trans; [|exact Hv].
    apply visits_sub; auto using visits_root.
Qed.


Lemma anomaly_warning_print (p : str) (e : entry) (ev : event) :
  anomaly_warning p e ev -> exists line, ev = Print line.
Proof. intros [[_ ->]|[_ ->]]; eexists; reflexivity. Qed.

Lemma only_prints_written (out : list event) :
  (forall ev, In ev out -> exists line, ev = Print line) ->
  flat_map (fun ev => match ev with
                      | WriteFile name content => [(name, content)]
                      | _ => []
                      end) out = [].
Proof.
  induction out as [|ev out IH]; intros H; [reflexivity|].
  destruct (H ev (or_introl eq_refl)) as (line & ->). simpl.
  apply IH. intros ev' Hev'. apply H. right; exact Hev'.
Qed.

Lemma scan_writes_nothing (root : str) (e : entry) :
  written (scan_directory root e) = [].
Proof.
  apply only_prints_written. intros ev Hev.
  destruct (scan_events_visits _ _ _ Hev) as (p & e' & _ & Ha).
  eapply anomaly_warning_print, Ha.
Qed.

(** X2.  Whatever its outcome, also when it ends with an exception, a
    scan writes no file and prints nothing but warnings: every event of it
    is a printed line, the warning of a path the scan was called on and
    found missing or denied. *)
Theorem scan_prints_only_warnings (root : str) (e : entry) :
  written (scan_directory root e) = []
  /\ forall ev,
      In ev (fst (scan_directory root e)) ->
      (exists line, ev = Print line)
      /\ exists p e', visits root e p e' /\ anomaly_warning p e' ev.
Proof.
  split; [apply scan_writes_nothing|].
  intros ev Hev.
  destruct (scan_events_visits _ _ _ Hev) as (p & e' & Hv & Ha).
  split; [eapply anomaly_warning_print, Ha|].
  exists p, e'. split; assumption.
Qed.


(** ** Nothing the scan should list is lost *)

Lemma InTree_trans (a b c : value) : InTree a b -> InTree b c -> InTree a c.
Proof.
  intros Hab Hbc. induction Hbc as [|t cs c' Hg Hc Hb IH]; [exact Hab|].
  eapply InTree_child; eassumption.
Qed.

(** The node an item adds is among the children. *)
Lemma scan_child_in_children (path : str) (entries : list (str * entry))
  (out o : list event) (t c : value) (item : str) :
  scan_directory path (Dir entries) = (out, inr t) ->
  In item (map fst entries) ->
  scan_child path entries item = (o, inr (Some c)) ->
  In c (children_of t).
Proof.
  rewrite scan_directory_children. intros H Hi Hc.
  apply bind_inr in H as (o1 & cs & o2 & Hcol & Hret & _).
  inversion Hret; subst. change (children_of (folder_with path cs)) with cs.
  apply collect_inr in Hcol as (rs & HF & -> & _).
  destruct (collected_item _ _ _ item HF) as (r & Hin & Hf);
    [apply sorted_In, Hi|].
  rewrite Hc in Hf. simpl in Hf. inversion Hf; subst r.
  apply In_flat_map_opt, Hin.
Qed.

(** X5.  Nothing the scan should list is lost.  Every path a scan that
    returns is called on (the root, and every directory that is not hidden
    in a directory it lists) has its folder node in the tree; and every
    regular file that is not hidden in such a directory, with an image or
    video extension, has its media node among the children of that folder
    node, with the quoted path as its source. *)
Theorem nothing_is_lost (root p : str) (e e' : entry) (out : list event)
  (t : value) :
  scan_directory root e = (out, inr t) ->
  visits root e p e' ->
  exists n out',
    InTree n t
    /\ scan_directory p e' = (out', inr n)
    /\ forall entries item,
        e' = Dir entries ->
        In item (map fst entries) ->
        hidden item = false ->
        resolve item entries = RegFile ->
        is_media_ext (extension item) = true ->
        exists web_path,
          quote (replace c_backslash [c_slash] (join p item)) (lit "/")
          = Some web_path
          /\ In (media_node item (extension item) web_path) (children_of n).
Proof.
  intros Hscan Hv.
  assert (Hfolder : exists n out',
             InTree n t /\ scan_directory p e' = (out', inr n)).
  { induction Hv as [|p entries item Hv IH Hi Hh Hd].
    - exists t, out. split; [apply InTree_root | exact Hscan].
    - destruct IH as (n & out' & Hn & Hsub).
      destruct (subscan_returns _ _ _ _ item Hsub Hi Hh Hd) as (c & Hc).
      exists c, (item_events p entries item). split; [|exact Hc].
      apply (InTree_trans _ n); [|exact Hn].
      destruct (scan_shape _ _ _ _ Hsub) as (cs & Hcs).
      apply (InTree_child _ n cs c);
        [rewrite Hcs; reflexivity | | apply InTree_root].
      assert (Hin : In c (children_of n)).
      { eapply (scan_child_in_children p entries _ _ n c item Hsub Hi).
        unfold scan_child, item_child. rewrite Hh, Hd, Hc. reflexivity. }
      rewrite Hcs in Hin. exact Hin. }
  destruct Hfolder as (n & out' & Hn & Hsub).
  exists n, out'. split; [exact Hn|]. split; [exact Hsub|].
  intros entries item -> Hi Hh Hr He.
  assert (Hret : exists o r, scan_child p entries item = (o, inr r)).
  { pose proof Hsub as Hsub'. rewrite scan_directory_children in Hsub'.
    apply bind_inr in Hsub' as (o1 & cs & o2 & Hcol & _ & _).
    apply collect_inr in Hcol as (rs & HF & _ & _).
    destruct (collected_item _ _ _ item HF) as (r & _ & Hf);
      [apply sorted_In, Hi|].
    destruct (scan_child p entries item) as [o x]. simpl in Hf; subst x.
    exists o, r; reflexivity. }
  destruct Hret as (o & r & Hc).
  pose proof Hc as Hc'. rewrite scan_child_media, He in Hc' by assumption.
  destruct (quote _ _) as [w|]; [|discriminate].
  inversion Hc'; subst. exists w. split; [reflexivity|].
  eapply scan_child_in_children; eassumption.
Qed.

(** ** The children, exactly *)

Lemma scan_child_kept (path : str) (entries : list (str * entry))
  (item : str) (o : list event) (r : option value) :
  valid_name item = true ->
  scan_child path entries item = (o, inr r) ->
  (kept entries item = false /\ r = None)
  \/ (kept entries item = true /\ exists c, r = Some c /\ has_name c item).
Proof.
  intros Hv H. destruct r as [c|].
  - right. pose proof (scan_child_name _ _ _ _ _ Hv H) as Hn.
    apply scan_child_Some in H as (Hh & [(Hd & _)|(Hf & He & _)]);
      unfold kept; rewrite Hh; cbn [negb andb].
    + rewrite Hd. split; [reflexivity | exists c; auto].
    + rewrite Hf, He. split; [reflexivity | exists c; auto].
  - left. split; [|reflexivity].
    unfold scan_child, item_child in H. unfold kept.
    destruct (hidden item); [reflexivity|]. cbn [negb andb].
    destruct (isdir (resolve item entries)).
    { apply bind_inr in H as (? & ? & ? & _ & H & _). discriminate. }
    destruct (isfile (resolve item entries)); [|reflexivity].
    destruct (is_media_ext (extension item)); [|reflexivity].
    destruct (quote _ _); discriminate.
Qed.

(** X6.  The children of a directory, exactly: in a scan that returns,
    the children of the folder node are, name by name and in this order,
    the sorted items of the listing that are not hidden and are either a
    directory or a regular file with an image or video extension; so the
    number of children is the number of those items. *)
Theorem children_are_kept_items (path : str) (entries : list (str * entry))
  (out : list event) (t : value) :
  names_valid (Dir entries) = true ->
  scan_directory path (Dir entries) = (out, inr t) ->
  Forall2 has_name (children_of t)
    (filter (kept entries) (sorted (map fst entries)))
  /\ List.length (children_of t)
     = List.length (filter (kept entries) (sorted (map fst entries))).
Proof.
  intros Hv Hscan.
  assert (HF2 : Forall2 has_name (children_of t)
                  (filter (kept entries) (sorted (map fst entries)))).
  { rewrite scan_directory_children in Hscan.
    apply bind_inr in Hscan as (o1 & cs & o2 & Hcol & Hret & _).
    inversion Hret; subst. change (children_of (folder_with path cs)) with cs.
    apply collect_inr in Hcol as (rs & HF & -> & _).
    assert (Hitems : Forall (fun i => valid_name i = true)
                       (sorted (map fst entries))).
    { apply Forall_forall. intros i Hi.
      apply (names_valid_item entries); [exact Hv | apply sorted_In, Hi]. }
    clear Hret. revert rs HF.
    induction Hitems as [|item items Hitem _ IH]; intros rs HF;
      simpl in HF; inversion HF as [|m r ms rs' Hm HF']; subst.
    - constructor.
    - destruct (scan_child path entries item) as [o x] eqn:E.
      simpl in Hm; subst x.
      destruct (scan_child_kept _ _ _ _ _ Hitem E)
        as [(Hk & ->)|(Hk & c & -> & Hn)];
        cbn [flat_map opt_list app filter]; rewrite Hk.
      + apply IH, HF'.
      + constructor; [exact Hn | apply IH, HF']. }
  split; [exact HF2|].
  clear - HF2. induction HF2; simpl; congruence.
Qed.

(** ** The quoted path *)

Lemma hex_digit_safe (n : N) : n < 16 -> always_safe (hex_digit n) = true.
Proof.
  intros H. unfold always_safe, hex_digit.
  rewrite !orb_true_iff, !andb_true_iff, !N.leb_le, !N.eqb_eq.
  destruct (N.ltb_spec n 10); lia.
Qed.

Lemma web_safe_ascii (c : char) :
  web_safe c = true -> c < 128 /\ c <> c_space.
Proof.
  unfold web_safe, always_safe, c_slash, c_percent, c_space.
  rewrite !orb_true_iff, !andb_true_iff, !N.leb_le, !N.eqb_eq. lia.
Qed.

Lemma quoter_web_safe (b : N) :
  is_byte b -> forallb web_safe (quoter [c_slash] b) = true.
Proof.
  unfold is_byte, quoter. intros Hb.
  destruct (always_safe b || existsb (N.eqb b) [c_slash]) eqn:E.
  - cbn [forallb existsb] in *. rewrite andb_true_r.
    rewrite orb_false_r in E. unfold web_safe. rewrite E. reflexivity.
  - assert (Hq : b / 16 < 16) by (apply N.Div0.div_lt_upper_bound; lia).
    assert (Hr : b mod 16 < 16) by (apply N.mod_lt; discriminate).
    cbn [forallb]. unfold web_safe at 2 3.
    rewrite !hex_digit_safe by assumption. reflexivity.
Qed.

Lemma quote_web_safe (s w : str) :
  quote s (lit "/") = Some w -> forallb web_safe w = true.
Proof.
  unfold quote. destruct (utf8_encode s) as [bs|] eqn:E; [|discriminate].
  intros H. assert (w = quote_from_bytes bs (lit "/")) by congruence.
  subst w. clear H. pose proof (utf8_encode_bytes _ _ E) as Hb. clear E.
  unfold quote_from_bytes. change (filter _ (lit "/")) with [c_slash].
  induction Hb as [|b bs Hb _ IH]; cbn [flat_map]; [reflexivity|].
  rewrite forallb_app, quoter_web_safe, IH by exact Hb. reflexivity.
Qed.

(** X7.  The source of every media node of the tree is web-safe: it is
    made of unreserved characters, separators and percent escapes alone,
    so it is plain ASCII and holds no space. *)
Theorem media_src_web_safe (root : str) (e : entry) (out : list event)
  (t n : value) :
  scan_directory root e = (out, inr t) ->
  InTree n t ->
  is_media n ->
  exists web_path,
    getitem n (lit "src") = Some (VStr web_path)
    /\ forallb web_safe web_path = true
    /\ ascii web_path = true
    /\ ~ In c_space web_path.
Proof.
  intros Hscan Hn Hm.
  destruct (media_nodes_of_scan _ _ _ _ _ Hscan Hn Hm)
    as (p & es & item & w & _ & _ & _ & _ & _ & Hq & ->).
  exists w. split; [apply media_node_src|].
  pose proof (quote_web_safe _ _ Hq) as Hw.
  split; [exact Hw|]. rewrite forallb_forall in Hw. split.
  - apply forallb_forall. intros c Hc. apply N.ltb_lt.
    apply web_safe_ascii, Hw, Hc.
  - intros Hc. apply Hw, web_safe_ascii in Hc. destruct Hc as [_ Hc].
    apply Hc; reflexivity.
Qed.

(** X8.  A path made of unreserved characters and separators alone is
    quoted as it is: nothing is escaped in it. *)
Theorem quote_safe_path_unchanged (s : str) :
  forallb (fun c => always_safe c || (c =? c_slash)) s = true ->
  quote s (lit "/") = Some s.
Proof.
  intros Hs. unfold quote.
  assert (Hascii : Forall (fun c => c < 128) s).
  { apply Forall_forall. intros c Hc.
    rewrite forallb_forall in Hs. specialize (Hs c Hc).
    apply web_safe_ascii. unfold web_safe.
    apply orb_true_iff in Hs as [->| ->]; [reflexivity|].
    rewrite orb_true_r. reflexivity. }
  rewrite (utf8_encode_ascii _ Hascii). f_equal.
  unfold quote_from_bytes. change (filter _ (lit "/")) with [c_slash].
  clear Hascii. induction s as [|c s IH]; [reflexivity|].
  cbn [forallb] in Hs. apply andb_true_iff in Hs as [Hc Hs].
  cbn [flat_map]. rewrite (IH Hs). unfold quoter.
  cbn [existsb]. rewrite orb_false_r, Hc. reflexivity.
Qed.

(** X9.  Quoting loses nothing: two paths with the same quoted form are
    the same path. *)
Theorem quote_injective (a b w : str) :
  quote a (lit "/") = Some w -> quote b (lit "/") = Some w -> a = b.
Proof.
  intros Ha Hb. apply unquote_quote in Ha, Hb. congruence.
Qed.

(** ** Identifiers, further *)

Lemma replace_app (old : char) (new a b : str) :
  replace old new (a ++ b) = replace old new a ++ replace old new b.
Proof.
  induction a as [|c a IH]; simpl; [reflexivity|].
  rewrite IH, app_assoc; reflexivity.
Qed.

(** X10.  Folder ids collide: the separator, the space and the underscore
    all become the underscore, and a dot leaves no trace, so paths that
    differ only in these have the same id. *)
Theorem generate_safe_id_collisions (a b : str) :
  generate_safe_id (a ++ [sep] ++ b) = generate_safe_id (a ++ [c_underscore] ++ b)
  /\ generate_safe_id (a ++ [c_space] ++ b)
     = generate_safe_id (a ++ [c_underscore] ++ b)
  /\ generate_safe_id (a ++ [c_dot] ++ b) = generate_safe_id (a ++ b).
Proof.
  unfold generate_safe_id. repeat split; f_equal;
    rewrite !replace_app; reflexivity.
Qed.

Lemma lower_from_ascii (before s : str) :
  ascii s = true -> lower_from before s = map ascii_lower s.
Proof.
  revert before. induction s as [|c s IH]; intros before; [reflexivity|].
  cbn [ascii forallb lower_from map]. rewrite andb_true_iff.
  intros [-> Hs]. rewrite (IH _ Hs). reflexivity.
Qed.

Lemma ascii_app (a b : str) : ascii (a ++ b) = ascii a && ascii b.
Proof. apply forallb_app. Qed.

Lemma ascii_replace (old : char) (new s : str) :
  ascii new = true -> ascii s = true -> ascii (replace old new s) = true.
Proof.
  intros Hn. induction s as [|c s IH]; [reflexivity|].
  cbn [ascii forallb replace]. rewrite andb_true_iff. intros [Hc Hs].
  fold (ascii (replace old new s)).
  change (forallb _ ?l) with (ascii l).
  rewrite ascii_app, (IH Hs), andb_true_r.
  destruct (c =? old); [exact Hn|]. cbn. rewrite Hc. reflexivity.
Qed.

(** The id of an ASCII path, character by character. *)
Lemma generate_safe_id_ascii (path : str) :
  ascii path = true ->
  generate_safe_id path
  = map ascii_lower
      (replace c_dot [] (replace c_space [c_underscore]
                           (replace sep [c_underscore] path))).
Proof.
  intros H. unfold generate_safe_id, lower.
  apply lower_from_ascii. repeat apply ascii_replace; auto.
Qed.

Lemma ascii_lower_id_char (c : char) :
  c < 128 -> c <> sep -> c <> c_space -> c <> c_dot ->
  id_char (ascii_lower c) = true.
Proof.
  unfold id_char, ascii_lower, is_upper, sep, c_slash, c_space, c_dot.
  intros H1 H2 H3 H4.
  destruct (N.leb_spec 65 c), (N.leb_spec c 90); cbn [andb];
    rewrite !andb_true_iff, !negb_true_iff, ?andb_false_iff,
      !N.ltb_lt, !N.eqb_neq, ?N.leb_gt; lia.
Qed.

Lemma id_char_fixed (i : str) :
  forallb id_char i = true ->
  replace c_dot [] (replace c_space [c_underscore]
                      (replace sep [c_underscore] i)) = i
  /\ map ascii_lower i = i /\ ascii i = true.
Proof.
  induction i as [|c i IH]; [repeat split|].
  cbn [forallb]. rewrite andb_true_iff. intros [Hc Hi].
  destruct (IH Hi) as (H1 & H2 & H3).
  unfold id_char in Hc.
  rewrite !andb_true_iff, !negb_true_iff in Hc.
  destruct Hc as [[[[Ha Hs] Hsp] Hd] Hu].
  repeat split.
  - cbn [replace]. rewrite Hs. cbn [app replace]. rewrite Hsp.
    cbn [app replace]. rewrite Hd. cbn [app]. rewrite H1. reflexivity.
  - cbn [map]. rewrite H2. unfold ascii_lower.
    unfold is_upper in Hu. rewrite Hu. reflexivity.
  - cbn [ascii forallb]. rewrite Ha. exact H3.
Qed.

(** X11.  The id of an ASCII path is DOM-safe in this sense: it holds no
    separator, no space, no dot and no capital; it is no longer than the
    path; and taking the id again changes nothing. *)
Theorem generate_safe_id_ascii_safe (path : str) :
  ascii path = true ->
  forallb id_char (generate_safe_id path) = true
  /\ (List.length (generate_safe_id path) <= List.length path)%nat
  /\ generate_safe_id (generate_safe_id path) = generate_safe_id path.
Proof.
  intros Hp.
  assert (Hchars : forallb id_char (generate_safe_id path) = true
                   /\ (List.length (generate_safe_id path)
                       <= List.length path)%nat).
  { rewrite (generate_safe_id_ascii _ Hp). clear - Hp.
    induction path as [|c path IH]; [split; [reflexivity | apply le_n]|].
    cbn [ascii forallb] in Hp. apply andb_true_iff in Hp as [Hc Hp].
    apply N.ltb_lt in Hc. destruct (IH Hp) as [IH1 IH2].
    cbn [replace].
    destruct (N.eqb_spec c sep) as [->|Hs];
      [cbn; split; [exact IH1 | lia]|].
    cbn [app replace].
    destruct (N.eqb_spec c c_space) as [->|Hsp];
      [cbn; split; [exact IH1 | lia]|].
    cbn [app replace].
    destruct (N.eqb_spec c c_dot) as [->|Hd];
      [cbn [app]; split; [exact IH1 | cbn [List.length]; lia]|].
    cbn [app map forallb List.length].
    rewrite ascii_lower_id_char by assumption.
    split; [exact IH1 | lia]. }
  destruct Hchars as [Hc Hl]. split; [exact Hc|]. split; [exact Hl|].
  destruct (id_char_fixed _ Hc) as (H1 & H2 & H3).
  rewrite (generate_safe_id_ascii _ H3), H1, H2. reflexivity.
Qed.

(** X12.  Ids follow the tree: for ASCII names, the id of a path joined
    from a directory and a name is the id of the directory, an underscore,
    and the id of the name. *)
Theorem generate_safe_id_join (p item : str) :
  ascii p = true ->
  ascii item = true ->
  p <> [] ->
  endswith_char sep p = false ->
  startswith [sep] item = false ->
  generate_safe_id (join p item)
  = generate_safe_id p ++ [c_underscore] ++ generate_safe_id item.
Proof.
  intros Hp Hi Hne He Hs. unfold join. rewrite Hs.
  destruct p as [|x p]; [elim Hne; reflexivity|]. rewrite He.
  rewrite !generate_safe_id_ascii;
    [| exact Hi | exact Hp | rewrite !ascii_app, Hp, Hi; reflexivity].
  rewrite !replace_app, !map_app. reflexivity.
Qed.

(** X13.  The id of every media node of the tree is as long as the name
    of the file and holds neither a dot nor a space. *)
Theorem media_id_shape (root : str) (e : entry) (out : list event)
  (t n : value) :
  scan_directory root e = (out, inr t) ->
  InTree n t ->
  is_media n ->
  exists item i,
    has_name n item
    /\ getitem n (lit "id") = Some (VStr i)
    /\ List.length i = List.length item
    /\ ~ In c_dot i
    /\ ~ In c_space i.
Proof.
  intros Hscan Hn Hm.
  destruct (media_nodes_of_scan _ _ _ _ _ Hscan Hn Hm)
    as (p & es & item & w & _ & _ & _ & _ & _ & _ & ->).
  exists item, (media_id_spec item).
  split; [apply media_node_name|].
  split; [rewrite media_node_id, media_id_replace; reflexivity|].
  unfold media_id_spec. split; [apply length_map|].
  split; intros Hin; apply in_map_iff in Hin as (c & Hc & _);
    unfold c_dot, c_space, c_underscore in Hc;
    destruct (N.eqb_spec c 46), (N.eqb_spec c 32); cbn [orb] in Hc;
    congruence.
Qed.

(** ** Paths *)

(** Where [rfind] finds the character: nowhere, or at its last
    occurrence. *)
Lemma rfind_from_spec (c : char) (s : str) (i last : Z) :
  (rfind_from c s i last = last /\ existsb (N.eqb c) s = false)
  \/ exists a b,
      s = a ++ c :: b
      /\ existsb (N.eqb c) b = false
      /\ rfind_from c s i last = (i + Z.of_nat (List.length a))%Z.
Proof.
  revert i last. induction s as [|x s IH]; intros i last.
  - left. split; reflexivity.
  - cbn [rfind_from existsb].
    destruct (IH (i + 1)%Z (if x =? c then i else last))
      as [[Hr Hn]|(a & b & -> & Hb & Hr)].
    + destruct (N.eqb_spec x c) as [->|Hx].
      * right. exists [], s. repeat split; [exact Hn|].
        rewrite Hr. simpl. lia.
      * left. rewrite Hr, Hn, orb_false_r. split; [reflexivity|].
        apply N.eqb_neq. congruence.
    + right. exists (x :: a), b. repeat split; [exact Hb|].
      rewrite Hr. cbn [List.length]. lia.
Qed.

Lemma endswith_char_snoc (c : char) (a : str) :
  endswith_char c (a ++ [c]) = true.
Proof.
  unfold endswith_char. rewrite rev_app_distr. simpl. apply N.eqb_refl.
Qed.

Lemma endswith_char_no (c : char) (s : str) :
  existsb (N.eqb c) s = false -> endswith_char c s = false.
Proof.
  intros H. unfold endswith_char. destruct (rev s) as [|x r] eqn:E;
    [reflexivity|].
  assert (Hin : In x s) by (apply in_rev; rewrite E; left; reflexivity).
  destruct (N.eqb_spec x c) as [->|]; [|reflexivity].
  assert (existsb (N.eqb c) s = true)
    by (apply existsb_exists; exists c; split; [exact Hin | apply N.eqb_refl]).
  congruence.
Qed.

(** [basename] gives what follows the last separator. *)
Lemma basename_spec (p : str) :
  exists d,
    p = d ++ basename p
    /\ (d = [] \/ endswith_char sep d = true)
    /\ existsb (N.eqb sep) (basename p) = false.
Proof.
  unfold basename, rfind, slice_from.
  destruct (rfind_from_spec sep p 0 (-1))
    as [[Hr Hn]|(a & b & -> & Hb & Hr)]; rewrite Hr.
  - exists []. repeat split; [left; reflexivity | exact Hn].
  - exists (a ++ [sep]).
    replace (Z.to_nat (0 + Z.of_nat (List.length a) + 1))
      with (List.length a + 1)%nat by lia.
    rewrite skipn_app, skipn_all2 by lia.
    replace (List.length a + 1 - List.length a)%nat with 1%nat by lia.
    cbn [skipn app]. rewrite <- app_assoc.
    repeat split; [right; apply endswith_char_snoc | exact Hb].
Qed.

(** X14.  The name of a folder node.  For the empty path and for a path
    that ends with the separator it is Home; for any other path it is what
    follows the last separator of the path: it is not empty and holds no
    separator. *)
Theorem folder_node_name (path : str) :
  exists name,
    getitem (folder_node path) (lit "name") = Some (VStr name)
    /\ name <> []
    /\ (path = [] \/ endswith_char sep path = true -> name = lit "Home")
    /\ (path <> [] -> endswith_char sep path = false ->
        existsb (N.eqb sep) name = false
        /\ exists d,
            path = d ++ name /\ (d = [] \/ endswith_char sep d = true)).
Proof.
  exists (py_or (basename path) (lit "Home")).
  split; [reflexivity|].
  destruct (basename_spec path) as (d & Hp & Hd & Hn).
  destruct (basename path) as [|x b] eqn:Eb; cbn [py_or].
  - rewrite app_nil_r in Hp. subst d.
    split; [discriminate|]. split; [reflexivity|].
    intros Hne He. destruct Hd as [Hd|Hd]; congruence.
  - split; [discriminate|]. split.
    + intros [->|He]; [destruct d; discriminate|].
      rewrite Hp in He.
      assert (Hx : endswith_char sep (d ++ x :: b) = false).
      { unfold endswith_char. rewrite rev_app_distr.
        pose proof (endswith_char_no sep (x :: b) Hn) as Hxb.
        unfold endswith_char in Hxb.
        destruct (rev (x :: b)) as [|z r] eqn:Er; [|exact Hxb].
        apply (f_equal (@rev _)) in Er. rewrite rev_involutive in Er.
        discriminate. }
      congruence.
    + intros _ _. split; [exact Hn|]. exists d. split; assumption.
Qed.

Lemma existsb_skipn {A : Type} (f : A -> bool) (n : nat) (l : list A) :
  existsb f l = false -> existsb f (skipn n l) = false.
Proof.
  revert l. induction n as [|n IH]; intros [|x l]; simpl; auto.
  intros H. apply orb_false_iff in H as [_ H]. apply IH, H.
Qed.

Lemma skipn_past_cons {A : Type} (a : list A) (x : A) (b : list A)
  (n : nat) :
  skipn (S (List.length a) + n) (a ++ x :: b) = skipn n b.
Proof. induction a as [|y a IH]; [reflexivity | exact IH]. Qed.

Lemma has_non_dot_nonempty (s : str) : has_non_dot s = true -> s <> [].
Proof. destruct s; [discriminate | discriminate]. Qed.

(** X15.  The extension of a name.  [splitext] cuts the name in two
    parts that make it up again; the extension is empty, or it is the last
    dot of the name and what follows it, free of dots and separators,
    after a stem that is not empty.  A media file therefore has a dot in
    its name: for a regular file without one the loop goes on with the
    node as it was. *)
Theorem extension_of_name (item : str) :
  fst (splitext item) ++ snd (splitext item) = item
  /\ (snd (splitext item) = []
      \/ (fst (splitext item) <> []
          /\ exists b,
              snd (splitext item) = c_dot :: b
              /\ existsb (N.eqb c_dot) b = false
              /\ existsb (N.eqb sep) b = false))
  /\ (is_media_ext (extension item) = true -> snd (splitext item) <> [])
  /\ (existsb (N.eqb c_dot) item = false ->
      forall path subscan node,
        scan_item path RegFile subscan item node = ret node).
Proof.
  assert (Hsplit :
            fst (splitext item) ++ snd (splitext item) = item
            /\ (snd (splitext item) = []
                \/ (fst (splitext item) <> []
                    /\ exists b,
                        snd (splitext item) = c_dot :: b
                        /\ existsb (N.eqb c_dot) b = false
                        /\ existsb (N.eqb sep) b = false))
            /\ (existsb (N.eqb c_dot) item = false ->
                snd (splitext item) = [])).
  { unfold splitext, rfind.
    assert (Hsep : (-1 <= rfind_from sep item 0 (-1))%Z)
      by (destruct (rfind_from_spec sep item 0 (-1))
           as [[-> _]|(? & ? & _ & _ & ->)]; lia).
    destruct (rfind_from_spec c_dot item 0 (-1))
      as [[Hr Hn]|(a & b & Hitem & Hb & Hr)]; rewrite Hr.
    - (* no dot *)
      destruct (Z.ltb_spec (rfind_from sep item 0 (-1)) (-1)); [lia|].
      cbn [fst snd]. rewrite app_nil_r. auto.
    - (* a last dot *)
      destruct (rfind_from sep item 0 (-1) <? 0 + Z.of_nat (List.length a))%Z
        eqn:Hlt; [|cbn [fst snd]; rewrite app_nil_r; split; [reflexivity|];
                   split; [left; reflexivity|];
                   intros Hnd; reflexivity].
      destruct (has_non_dot _) eqn:Hnon;
        [|cbn [fst snd]; rewrite app_nil_r; split; [reflexivity|];
          split; [left; reflexivity|]; intros Hnd; reflexivity].
      cbn [fst snd]. unfold slice_to, slice_from.
      replace (Z.to_nat (0 + Z.of_nat (List.length a)))
        with (List.length a) by lia.
      split; [apply firstn_skipn|].
      assert (Hfst : firstn (List.length a) item = a)
        by (rewrite Hitem, firstn_app, firstn_all, Nat.sub_diag;
            apply app_nil_r).
      assert (Hsnd : skipn (List.length a) item = c_dot :: b)
        by (rewrite Hitem, skipn_app, skipn_all, Nat.sub_diag; reflexivity).
      rewrite Hfst, Hsnd. split.
      + right. split.
        * (* the stem holds the character that is no dot *)
          apply has_non_dot_nonempty in Hnon.
          intros ->. apply Hnon. unfold slice_to, slice_from.
          apply Z.ltb_lt in Hlt. cbn [List.length] in Hlt |- *.
          replace (Z.to_nat (0 + Z.of_nat 0
                             - (rfind_from sep item 0 (-1) + 1)))
            with 0%nat by lia.
          reflexivity.
        * exists b. split; [reflexivity|]. split; [exact Hb|].
          apply Z.ltb_lt in Hlt.
          destruct (rfind_from_spec sep item 0 (-1))
            as [[_ Hn]|(a' & b' & Hitem' & Hb' & Hr')].
          -- rewrite Hitem in Hn.
             rewrite existsb_app in Hn. apply orb_false_iff in Hn as [_ Hn].
             cbn [existsb] in Hn. apply orb_false_iff in Hn as [_ Hn].
             exact Hn.
          -- rewrite Hr' in Hlt.
             assert (Hb2 : b = skipn (List.length a - List.length a') b').
             { assert (H1 : skipn (S (List.length a) + 0) item = b)
                 by (rewrite Hitem; apply (skipn_past_cons a c_dot b 0)).
               rewrite <- H1, Hitem'.
               replace (S (List.length a) + 0)%nat
                 with (S (List.length a')
                       + (List.length a - List.length a'))%nat by lia.
               apply skipn_past_cons. }
             rewrite Hb2. apply existsb_skipn, Hb'.
      + intros Hnd. rewrite Hitem, existsb_app in Hnd.
        apply orb_false_iff in Hnd as [_ Hnd]. cbn [existsb] in Hnd.
        rewrite N.eqb_refl in Hnd. discriminate. }
  destruct Hsplit as (H1 & H2 & H3).
  split; [exact H1|]. split; [exact H2|]. split.
  - intros He Hnil. unfold extension in He. rewrite Hnil in He.
    discriminate He.
  - intros Hnd path subscan node. unfold scan_item.
    destruct (startswith (lit ".") item); [reflexivity|].
    cbn [isdir isfile]. rewrite (H3 Hnd). reflexivity.
Qed.

(** ** Entries the scan passes over *)

Lemma filter_strongly_sorted (f : str -> bool) (l : list str) :
  StronglySorted str_le l -> StronglySorted str_le (filter f l).
Proof.
  induction 1 as [|x l Hs IH Hx]; simpl; [constructor|].
  destruct (f x); [|exact IH].
  constructor; [exact IH|].
  apply Forall_forall. intros y Hy. apply filter_In in Hy as [Hy _].
  exact (proj1 (Forall_forall _ _) Hx y Hy).
Qed.

Lemma filter_permutation {A : Type} (f : A -> bool) (l1 l2 : list A) :
  Permutation l1 l2 -> Permutation (filter f l1) (filter f l2).
Proof.
  induction 1 as [|x l1 l2 Hp IH|x y l|l1 l2 l3 _ IH1 _ IH2]; simpl.
  - constructor.
  - destruct (f x); [constructor|]; exact IH.
  - destruct (f x), (f y); try reflexivity. apply perm_swap.
  - etransitivity; eassumption.
Qed.

Lemma sorted_filter (f : str -> bool) (l : list str) :
  sorted (filter f l) = filter f (sorted l).
Proof.
  apply sorted_unique.
  - apply sorted_sorted.
  - apply filter_strongly_sorted, sorted_sorted.
  - rewrite sorted_perm. apply filter_permutation.
    symmetry. apply sorted_perm.
Qed.

Lemma map_fst_filter_key {A : Type} (f : str -> bool) (l : list (str * A)) :
  map fst (filter (fun ne => f (fst ne)) l) = filter f (map fst l).
Proof.
  induction l as [|[k v] l IH]; simpl; [reflexivity|].
  destruct (f k); simpl; rewrite IH; reflexivity.
Qed.

Lemma resolve_filter_key (f : str -> bool) (entries : list (str * entry))
  (item : str) :
  f item = true ->
  resolve item (filter (fun ne => f (fst ne)) entries) = resolve item entries.
Proof.
  intros Hf. unfold resolve.
  induction entries as [|[k v] entries IH]; simpl; [reflexivity|].
  destruct (str_eqb item k) eqn:E.
  - apply str_eqb_eq in E; subst k. rewrite Hf. simpl.
    rewrite str_eqb_refl. reflexivity.
  - destruct (f k); simpl; [rewrite E|]; exact IH.
Qed.

Lemma for_each_filter {A S : Type} (f : A -> bool) (items : list A)
  (body : A -> S -> M S) (s : S) :
  (forall x s', f x = false -> body x s' = ret s') ->
  for_each items body s = for_each (filter f items) body s.
Proof.
  intros Hskip. revert s.
  induction items as [|x items IH]; intros s; [reflexivity|].
  cbn [for_each filter]. destruct (f x) eqn:E.
  - cbn [for_each]. apply bind_ext. exact IH.
  - rewrite (Hskip _ _ E), bind_ret_l. apply IH.
Qed.

(** X17.  The entries the loop passes over have no effect at all.
    Dropping from a directory the entries that are hidden, and those that
    are neither a directory nor a regular file with an image or video
    extension, changes nothing in the outcome of its scan: not the tree,
    not what is printed, not the exception. *)
Theorem passed_over_entries_have_no_effect (path : str)
  (entries : list (str * entry)) :
  scan_directory path (Dir entries)
  = scan_directory path
      (Dir (filter (fun ne => kept entries (fst ne)) entries)).
Proof.
  rewrite !scan_directory_Dir.
  rewrite (map_fst_filter_key (kept entries)), sorted_filter.
  rewrite (for_each_filter (kept entries)).
  - assert (Hin : forall item,
               In item (filter (kept entries) (sorted (map fst entries))) ->
               kept entries item = true)
      by (intros item Hi; apply filter_In in Hi as [_ Hk]; exact Hk).
    revert Hin.
    generalize (filter (kept entries) (sorted (map fst entries))) as items.
    intros items Hin. generalize (folder_node path) as node.
    induction items as [|item items IH]; intros node; [reflexivity|].
    cbn [for_each].
    rewrite (resolve_filter_key (kept entries) entries item)
      by (apply Hin; left; reflexivity).
    apply bind_ext. intros node'. apply IH.
    intros i Hi. apply Hin. right; exact Hi.
  - intros item node Hk. unfold scan_item, kept in *.
    fold (hidden item). destruct (hidden item); [reflexivity|].
    cbn [negb andb] in Hk. apply orb_false_iff in Hk as [Hd Hf].
    rewrite Hd. destruct (isfile (resolve item entries)); [|reflexivity].
    cbn [andb] in Hf. fold (extension item).
    fold (is_media_ext (extension item)). rewrite Hf. reflexivity.
Qed.

(** ** The shape of the nodes *)

(** X18.  Every node of the tree is a dict with one of two key
    sequences.  A folder has the keys id, name, type and children, in this
    order, and is no media node; a media node has the keys id, name, type,
    src, thumbnail and date, in this order, is no folder, and has no
    children: it is a leaf. *)
Theorem node_shapes (root : str) (e : entry) (out : list event)
  (t n : value) :
  scan_directory root e = (out, inr t) ->
  InTree n t ->
  exists fields,
    n = VDict fields
    /\ ((map fst fields
         = [lit "id"; lit "name"; lit "type"; lit "children"]
         /\ is_folder n /\ ~ is_media n)
        \/ (map fst fields
            = [lit "id"; lit "name"; lit "type"; lit "src";
               lit "thumbnail"; lit "date"]
            /\ is_media n /\ ~ is_folder n
            /\ getitem n (lit "children") = None
            /\ forall m, InTree m n -> m = n)).
Proof.
  intros Hscan Hn.
  assert (Hfolder : forall p cs,
             exists fields,
               folder_with p cs = VDict fields
               /\ ((map fst fields
                    = [lit "id"; lit "name"; lit "type"; lit "children"]
                    /\ is_folder (folder_with p cs)
                    /\ ~ is_media (folder_with p cs))
                   \/ (map fst fields
                       = [lit "id"; lit "name"; lit "type"; lit "src";
                          lit "thumbnail"; lit "date"]
                       /\ is_media (folder_with p cs)
                       /\ ~ is_folder (folder_with p cs)
                       /\ getitem (folder_with p cs) (lit "children") = None
                       /\ forall m, InTree m (folder_with p cs) ->
                                    m = folder_with p cs))).
  { intros p cs. eexists. split; [reflexivity|]. left.
    split; [reflexivity|]. split; [reflexivity|].
    apply folder_with_not_media. }
  destruct (nodes_of_scan _ _ _ _ _ Hscan Hn)
    as [->|[(p & es & item & w & _ & _ & _ & _ & _ & _ & ->)
           |(p & es & item & o & _ & _ & _ & _ & Hsub)]].
  - destruct (scan_shape _ _ _ _ Hscan) as (cs & ->). apply Hfolder.
  - eexists. split; [reflexivity|]. right.
    split; [reflexivity|]. split; [apply media_node_is_media|].
    split; [apply media_node_not_folder|]. split; [reflexivity|].
    intros m. apply InTree_media.
  - destruct (scan_shape _ _ _ _ Hsub) as (cs & ->). apply Hfolder.
Qed.

End Properties.

(** ** The properties at work on the examples *)

#[local] Existing Instance ascii_library.

(** C1 on ['img/Vacation 2023/beach.JPG'], whose path holds a space. *)
Lemma source_path_round_trip_witness :
  scan_directory (lit "img") example_fs = (example_out, inr example_tree)
  /\ InTree example_media example_tree
  /\ is_media example_media
  /\ exists p entries item web_path,
      visits (lit "img") example_fs p (Dir entries)
      /\ In item (map fst entries)
      /\ resolve item entries = RegFile
      /\ getitem example_media (lit "name") = Some (VStr item)
      /\ getitem example_media (lit "src") = Some (VStr web_path)
      /\ unquote web_path
         = Some (replace c_backslash [c_slash] (join p item)).
Proof.
  assert (H1 : scan_directory (lit "img") example_fs
               = (example_out, inr example_tree)) by by_running.
  assert (H2 : InTree example_media example_tree) by media_in_tree.
  assert (H3 : is_media example_media) by (left; reflexivity).
  exact (conj H1 (conj H2 (conj H3
           (source_path_round_trip _ _ _ _ _ H1 H2 H3)))).
Defined.

(** C2 on the folder ['img/Vacation 2023']. *)
Lemma folder_id_from_path_witness :
  scan_directory (lit "img") example_fs = (example_out, inr example_tree)
  /\ InTree example_folder example_tree
  /\ is_folder example_folder
  /\ exists p e' out',
      visits (lit "img") example_fs p e'
      /\ scan_directory p e' = (out', inr example_folder)
      /\ getitem example_folder (lit "id") = Some (VStr (folder_id_spec p)).
Proof.
  assert (H1 : scan_directory (lit "img") example_fs
               = (example_out, inr example_tree)) by by_running.
  assert (H2 : InTree example_folder example_tree) by folder_in_tree.
  assert (H3 : is_folder example_folder) by reflexivity.
  exact (conj H1 (conj H2 (conj H3
           (folder_id_from_path _ _ _ _ _ H1 H2 H3)))).
Defined.

(** C3 on ['beach.JPG'], whose id keeps the capitals. *)
Lemma media_id_from_name_witness :
  scan_directory (lit "img") example_fs = (example_out, inr example_tree)
  /\ InTree example_media example_tree
  /\ is_media example_media
  /\ exists p entries item,
      visits (lit "img") example_fs p (Dir entries)
      /\ In item (map fst entries)
      /\ resolve item entries = RegFile
      /\ getitem example_media (lit "name") = Some (VStr item)
      /\ getitem example_media (lit "id") = Some (VStr (media_id_spec item)).
Proof.
  assert (H1 : scan_directory (lit "img") example_fs
               = (example_out, inr example_tree)) by by_running.
  assert (H2 : InTree example_media example_tree) by media_in_tree.
  assert (H3 : is_media example_media) by (left; reflexivity).
  exact (conj H1 (conj H2 (conj H3
           (media_id_from_name _ _ _ _ _ H1 H2 H3)))).
Defined.

(** C5 on the folder ['Vacation 2023'], which holds ['.DS_Store']. *)
Lemma hidden_entries_never_appear_witness :
  names_valid example_fs = true
  /\ scan_directory (lit "img") example_fs = (example_out, inr example_tree)
  /\ In example_folder (children_of example_tree)
  /\ InTree example_media example_folder
  /\ exists name,
      has_name example_media name /\ startswith (lit ".") name = false.
Proof.
  assert (H0 : names_valid example_fs = true) by by_running.
  assert (H1 : scan_directory (lit "img") example_fs
               = (example_out, inr example_tree)) by by_running.
  assert (H2 : In example_folder (children_of example_tree))
    by (right; left; reflexivity).
  assert (H3 : InTree example_media example_folder) by media_in_folder.
  exact (conj H0 (conj H1 (conj H2 (conj H3
           (hidden_entries_never_appear _ _ _ _ _ _ H0 H1 H2 H3))))).
Defined.

(** C6 on the root, whose entries are enumerated out of order. *)
Lemma children_in_name_order_witness :
  names_valid example_fs = true
  /\ scan_directory (lit "img") example_fs = (example_out, inr example_tree)
  /\ InTree example_tree example_tree
  /\ is_folder example_tree
  /\ exists names,
      Forall2 has_name (children_of example_tree) names
      /\ StronglySorted str_le names.
Proof.
  assert (H0 : names_valid example_fs = true) by by_running.
  assert (H1 : scan_directory (lit "img") example_fs
               = (example_out, inr example_tree)) by by_running.
  assert (H2 : InTree example_tree example_tree) by apply InTree_root.
  assert (H3 : is_folder example_tree) by reflexivity.
  exact (conj H0 (conj H1 (conj H2 (conj H3
           (children_in_name_order _ _ _ _ _ H0 H1 H2 H3))))).
Defined.

(** C7 on the node of ['beach.JPG']. *)
Lemma node_fields_witness :
  scan_directory (lit "img") example_fs = (example_out, inr example_tree)
  /\ InTree example_media example_tree
  /\ (is_folder example_media ->
      exists cs, getitem example_media (lit "children") = Some (VList cs))
  /\ (is_media example_media ->
      exists web_path,
        getitem example_media (lit "src") = Some (VStr web_path)
        /\ getitem example_media (lit "thumbnail") = Some (VStr web_path)
        /\ getitem example_media (lit "date") = Some (VStr [])).
Proof.
  assert (H1 : scan_directory (lit "img") example_fs
               = (example_out, inr example_tree)) by by_running.
  assert (H2 : InTree example_media example_tree) by media_in_tree.
  exact (conj H1 (conj H2 (node_fields _ _ _ _ _ H1 H2))).
Defined.

(** C4, as the code has it, on ['beach.JPG'] in ['img/Vacation 2023']. *)
Lemma media_files_by_extension_witness :
  scan_directory (lit "img/Vacation 2023") (Dir example_album)
  = ([], inr example_folder)
  /\ In (lit "beach.JPG") (map fst example_album)
  /\ resolve (lit "beach.JPG") example_album = RegFile
  /\ hidden (lit "beach.JPG") = false
  /\ ((exists c,
         In c (children_of example_folder)
         /\ has_name c (lit "beach.JPG") /\ is_media c)
      <-> (mem (extension (lit "beach.JPG")) IMG_EXTENSIONS = true
           \/ mem (extension (lit "beach.JPG")) VID_EXTENSIONS = true))
  /\ (forall c,
        In c (children_of example_folder) ->
        has_name c (lit "beach.JPG") -> is_media c ->
        (getitem c (lit "type") = Some (VStr (lit "image"))
         <-> mem (extension (lit "beach.JPG")) IMG_EXTENSIONS = true)
        /\ (getitem c (lit "type") = Some (VStr (lit "video"))
            <-> mem (extension (lit "beach.JPG")) VID_EXTENSIONS = true))
  /\ (mem (extension (lit "beach.JPG")) IMG_EXTENSIONS = false ->
      mem (extension (lit "beach.JPG")) VID_EXTENSIONS = false ->
      forall subscan node,
        scan_item (lit "img/Vacation 2023") RegFile subscan
          (lit "beach.JPG") node
        = ret node)
  /\ extension (lit "PHOTO.JPG") = extension (lit "photo.jpg").
Proof.
  assert (H1 : scan_directory (lit "img/Vacation 2023") (Dir example_album)
               = ([], inr example_folder)) by by_running.
  assert (H2 : In (lit "beach.JPG") (map fst example_album))
    by (left; reflexivity).
  assert (H3 : resolve (lit "beach.JPG") example_album = RegFile)
    by reflexivity.
  assert (H4 : hidden (lit "beach.JPG") = false) by reflexivity.
  exact (conj H1 (conj H2 (conj H3 (conj H4
           (media_files_by_extension _ _ _ _ _ H1 H2 H3 H4))))).
Defined.

(** C4 as it is stated fails on a hidden file: ['.photo.jpg'] is a regular
    file with an image extension, and the scan of its directory returns
    no node for it. *)
Lemma hidden_media_file_skipped :
  resolve (lit ".photo.jpg") hidden_photo = RegFile
  /\ mem (extension (lit ".photo.jpg")) IMG_EXTENSIONS = true
  /\ scan_directory (lit "img") (Dir hidden_photo)
     = ([], inr (folder_with (lit "img") []))
  /\ ~ ((exists c,
           In c (children_of (folder_with (lit "img") []))
           /\ has_name c (lit ".photo.jpg") /\ is_media c)
        <-> (mem (extension (lit ".photo.jpg")) IMG_EXTENSIONS = true
             \/ mem (extension (lit ".photo.jpg")) VID_EXTENSIONS = true)).
Proof.
  split; [reflexivity|]. split; [reflexivity|]. split; [by_running|].
  intros [_ H]. destruct H as (c & Hc & _); [left; reflexivity|].
  destruct Hc.
Qed.

(** C8 on the directory ['locked'], the last item of the loop of
    ['img']. *)
Lemma unreadable_paths_recovered_witness :
  hidden (lit "locked") = false
  /\ resolve (lit "locked") example_entries = DirDenied
  /\ for_each [lit "locked"] (loop_body (lit "img") example_entries)
       (folder_node (lit "img"))
     = (warn_denied (join (lit "img") (lit "locked")) ;;
        for_each [] (loop_body (lit "img") example_entries)
          (children_append (folder_node (lit "img"))
             (folder_with (join (lit "img") (lit "locked")) []))).
Proof.
  assert (H1 : hidden (lit "locked") = false) by reflexivity.
  assert (H2 : resolve (lit "locked") example_entries = DirDenied)
    by reflexivity.
  exact (conj H1 (conj H2
           (proj2 (proj2 (unreadable_paths_recovered (lit "img")))
              example_entries (lit "locked") [] (folder_node (lit "img"))
              H1 H2))).
Defined.

(** C9, as the code has it, on the example: one warning, for
    ['img/locked']. *)
Lemma warnings_are_printed_witness :
  scan_directory (lit "img") example_fs = (example_out, inr example_tree)
  /\ (forall ev,
        In ev example_out
        <-> exists p e',
            visits (lit "img") example_fs p e' /\ anomaly_warning p e' ev)
  /\ (forall entries,
        example_fs = Dir entries ->
        example_out
        = flat_map (item_events (lit "img") entries)
            (sorted (map fst entries)))
  /\ (lit "img" = IMAGE_ROOT ->
      path_exists example_fs = true ->
      forall write_error,
      exists tail,
        generate example_fs write_error
        = (Print (lit "--- GG Gallery Generator ---")
             :: Print (lit "Scanning directory: 'img'...")
             :: example_out ++ tail,
           inr tt)).
Proof.
  assert (H1 : scan_directory (lit "img") example_fs
               = (example_out, inr example_tree)) by by_running.
  exact (conj H1 (warnings_are_printed _ _ _ _ H1)).
Defined.

(** C9 as it is stated fails: a root that is missing and a root that is
    an empty directory return the same value, the first with a warning
    printed and the second with none, so no function of the returned value
    gives the warnings; and [generate] returns nothing at all. *)
Lemma warnings_not_returned :
  snd (scan_directory (lit "img") Missing)
  = snd (scan_directory (lit "img") (Dir []))
  /\ printed (scan_directory (lit "img") Missing)
     = [lit "Warning: Path 'img' not found."]
  /\ printed (scan_directory (lit "img") (Dir [])) = []
  /\ snd (generate DirDenied None) = inr tt
  /\ printed (generate DirDenied None)
     = [lit "--- GG Gallery Generator ---";
        lit "Scanning directory: 'img'...";
        lit "Warning: Permission denied for 'img'.";
        lit "Success! Data structure saved to 'gallery_data.js'.";
        lit "Total items in root: 0"]
  /\ ~ (exists warnings_of : value -> list str,
         forall e,
           match snd (scan_directory (lit "img") e) with
           | inr t => warnings_of t = printed (scan_directory (lit "img") e)
           | inl _ => True
           end).
Proof.
  split; [reflexivity|]. split; [reflexivity|]. split; [reflexivity|].
  split; [by_running|]. split; [by_running|].
  intros (f & Hf).
  pose proof (Hf Missing) as H1. pose proof (Hf (Dir [])) as H2.
  cbv beta iota in H1, H2.
  change (snd (scan_directory (lit "img") Missing))
    with (@inr exn value (folder_with (lit "img") [])) in H1.
  change (snd (scan_directory (lit "img") (Dir [])))
    with (@inr exn value (folder_with (lit "img") [])) in H2.
  cbv beta iota in H1, H2. rewrite H1 in H2. discriminate H2.
Qed.

(** C10 on a snapshot enumerated in two orders, at both levels. *)
Lemma scan_independent_of_enumeration_witness :
  unique_names listing_a = true
  /\ reordering listing_a listing_b
  /\ scan_directory (lit "img") listing_a
     = scan_directory (lit "img") listing_b.
Proof.
  assert (H1 : unique_names listing_a = true) by by_running.
  assert (H2 : reordering listing_a listing_b).
  { apply (reorder_dir _
             [(lit "b", Dir [(lit "x.png", RegFile); (lit "y.png", RegFile)]);
              (lit "a.png", RegFile)]).
    - constructor; [split; [reflexivity|] | ].
      + apply (reorder_dir _ [(lit "y.png", RegFile); (lit "x.png", RegFile)]).
        * repeat (constructor; [split; [reflexivity | constructor]|]).
          constructor.
        * apply perm_swap.
      + constructor; [split; [reflexivity | constructor] | constructor].
    - apply perm_swap. }
  exact (conj H1 (conj H2
           (scan_independent_of_enumeration (lit "img") _ _ H1 H2))).
Defined.

(** ** The further properties on the examples *)


(** X5 on the folder ['img/Vacation 2023'] and its file ['beach.JPG']. *)
Lemma nothing_is_lost_witness :
  scan_directory (lit "img") example_fs = (example_out, inr example_tree)
  /\ visits (lit "img") example_fs (lit "img/Vacation 2023")
       (Dir example_album)
  /\ exists n out',
      InTree n example_tree
      /\ scan_directory (lit "img/Vacation 2023") (Dir example_album)
         = (out', inr n)
      /\ forall entries item,
          Dir example_album = Dir entries ->
          In item (map fst entries) ->
          hidden item = false ->
          resolve item entries = RegFile ->
          is_media_ext (extension item) = true ->
          exists web_path,
            quote (replace c_backslash [c_slash]
                     (join (lit "img/Vacation 2023") item)) (lit "/")
            = Some web_path
            /\ In (media_node item (extension item) web_path)
                 (children_of n).
Proof.
  assert (H1 : scan_directory (lit "img") example_fs
               = (example_out, inr example_tree)) by by_running.
  assert (H2 : visits (lit "img") example_fs (lit "img/Vacation 2023")
                 (Dir example_album)).
  { apply (visits_sub (lit "img") example_fs (lit "img") example_entries
             (lit "Vacation 2023"));
      [apply visits_root | right; left; reflexivity
      | reflexivity | reflexivity]. }
  exact (conj H1 (conj H2 (nothing_is_lost _ _ _ _ _ _ H1 H2))).
Defined.

(** X6 on the root: of its four entries, three are kept. *)
Lemma children_are_kept_items_witness :
  names_valid (Dir example_entries) = true
  /\ scan_directory (lit "img") (Dir example_entries)
     = (example_out, inr example_tree)
  /\ Forall2 has_name (children_of example_tree)
       (filter (kept example_entries) (sorted (map fst example_entries)))
  /\ List.length (children_of example_tree)
     = List.length
         (filter (kept example_entries) (sorted (map fst example_entries))).
Proof.
  assert (H0 : names_valid (Dir example_entries) = true) by by_running.
  assert (H1 : scan_directory (lit "img") (Dir example_entries)
               = (example_out, inr example_tree)) by by_running.
  exact (conj H0 (conj H1 (children_are_kept_items _ _ _ _ H0 H1))).
Defined.

(** X7 on ['beach.JPG'], whose path holds a space. *)
Lemma media_src_web_safe_witness :
  scan_directory (lit "img") example_fs = (example_out, inr example_tree)
  /\ InTree example_media example_tree
  /\ is_media example_media
  /\ exists web_path,
      getitem example_media (lit "src") = Some (VStr web_path)
      /\ forallb web_safe web_path = true
      /\ ascii web_path = true
      /\ ~ In c_space web_path.
Proof.
  assert (H1 : scan_directory (lit "img") example_fs
               = (example_out, inr example_tree)) by by_running.
  assert (H2 : InTree example_media example_tree) by media_in_tree.
  assert (H3 : is_media example_media) by (left; reflexivity).
  exact (conj H1 (conj H2 (conj H3
           (media_src_web_safe _ _ _ _ _ H1 H2 H3)))).
Defined.

(** X8 on ['img/Clips/video.mp4']. *)
Lemma quote_safe_path_unchanged_witness :
  forallb (fun c => always_safe c || (c =? c_slash))
    (lit "img/Clips/video.mp4") = true
  /\ quote (lit "img/Clips/video.mp4") (lit "/")
     = Some (lit "img/Clips/video.mp4").
Proof.
  assert (H1 : forallb (fun c => always_safe c || (c =? c_slash))
                 (lit "img/Clips/video.mp4") = true) by by_running.
  exact (conj H1 (quote_safe_path_unchanged _ H1)).
Defined.

(** X9 on the quoted form of ['img/Vacation 2023/beach.JPG']. *)
Lemma quote_injective_witness :
  quote (lit "img/Vacation 2023/beach.JPG") (lit "/")
  = Some (lit "img/Vacation%202023/beach.JPG")
  /\ lit "img/Vacation 2023/beach.JPG" = lit "img/Vacation 2023/beach.JPG".
Proof.
  assert (H1 : quote (lit "img/Vacation 2023/beach.JPG") (lit "/")
               = Some (lit "img/Vacation%202023/beach.JPG")) by by_running.
  exact (conj H1 (quote_injective _ _ _ H1 H1)).
Defined.

(** X11 on ['img/Vacation 2023']. *)
Lemma generate_safe_id_ascii_safe_witness :
  ascii (lit "img/Vacation 2023") = true
  /\ forallb id_char (generate_safe_id (lit "img/Vacation 2023")) = true
  /\ (List.length (generate_safe_id (lit "img/Vacation 2023"))
      <= List.length (lit "img/Vacation 2023"))%nat
  /\ generate_safe_id (generate_safe_id (lit "img/Vacation 2023"))
     = generate_safe_id (lit "img/Vacation 2023").
Proof.
  assert (H1 : ascii (lit "img/Vacation 2023") = true) by by_running.
  exact (conj H1 (generate_safe_id_ascii_safe _ H1)).
Defined.

(** X12 on ['img'] and ['Vacation 2023']. *)
Lemma generate_safe_id_join_witness :
  ascii (lit "img") = true
  /\ ascii (lit "Vacation 2023") = true
  /\ lit "img" <> []
  /\ endswith_char sep (lit "img") = false
  /\ startswith [sep] (lit "Vacation 2023") = false
  /\ generate_safe_id (join (lit "img") (lit "Vacation 2023"))
     = generate_safe_id (lit "img") ++ [c_underscore]
       ++ generate_safe_id (lit "Vacation 2023").
Proof.
  assert (H1 : ascii (lit "img") = true) by by_running.
  assert (H2 : ascii (lit "Vacation 2023") = true) by by_running.
  assert (H3 : lit "img" <> []) by discriminate.
  assert (H4 : endswith_char sep (lit "img") = false) by by_running.
  assert (H5 : startswith [sep] (lit "Vacation 2023") = false)
    by by_running.
  exact (conj H1 (conj H2 (conj H3 (conj H4 (conj H5
           (generate_safe_id_join _ _ H1 H2 H3 H4 H5)))))).
Defined.

(** X13 on ['beach.JPG']. *)
Lemma media_id_shape_witness :
  scan_directory (lit "img") example_fs = (example_out, inr example_tree)
  /\ InTree example_media example_tree
  /\ is_media example_media
  /\ exists item i,
      has_name example_media item
      /\ getitem example_media (lit "id") = Some (VStr i)
      /\ List.length i = List.length item
      /\ ~ In c_dot i
      /\ ~ In c_space i.
Proof.
  assert (H1 : scan_directory (lit "img") example_fs
               = (example_out, inr example_tree)) by by_running.
  assert (H2 : InTree example_media example_tree) by media_in_tree.
  assert (H3 : is_media example_media) by (left; reflexivity).
  exact (conj H1 (conj H2 (conj H3 (media_id_shape _ _ _ _ _ H1 H2 H3)))).
Defined.


(** X18 on the node of ['beach.JPG']. *)
Lemma node_shapes_witness :
  scan_directory (lit "img") example_fs = (example_out, inr example_tree)
  /\ InTree example_media example_tree
  /\ exists fields,
      example_media = VDict fields
      /\ ((map fst fields
           = [lit "id"; lit "name"; lit "type"; lit "children"]
           /\ is_folder example_media /\ ~ is_media example_media)
          \/ (map fst fields
              = [lit "id"; lit "name"; lit "type"; lit "src";
                 lit "thumbnail"; lit "date"]
              /\ is_media example_media /\ ~ is_folder example_media
              /\ getitem example_media (lit "children") = None
              /\ forall m, InTree m example_media -> m = example_media)).
Proof.
  assert (H1 : scan_directory (lit "img") example_fs
               = (example_out, inr example_tree)) by by_running.
  assert (H2 : InTree example_media example_tree) by media_in_tree.
  exact (conj H1 (conj H2 (node_shapes _ _ _ _ _ H1 H2))).
Defined.
